(** * OfferFrame: persistence of trade offers (src/ledger/OfferFrame.cpp)

    A shallow embedding of [OfferFrame] and of the relational table [Offers]
    it reads and writes.  The C++ code talks to the table through SQL
    statements; here a statement is the list of columns it names together
    with the values it binds, and the table is the list of its rows.
    Exceptions thrown by the code ([std::runtime_error], [soci::soci_error],
    a wrong access to an XDR union arm) are values of [exn]. *)

From Stdlib Require Import ZArith List Strings.String Strings.Ascii Strings.Byte Bool Lia.
From Stdlib Require Import Sorting.Sorted Sorting.Permutation.
Import ListNotations.

Local Open Scope string_scope.
Local Open Scope list_scope.
Local Open Scope Z_scope.

(** ** Exceptions and results *)

(** Why the backend refused a statement or a fetch. *)
Inductive SqlFailure : Type :=
| NoSuchTable
| NoSuchColumn (c : string)
| DatatypeMismatch (c : string)
| NotNullConstraint (c : string)
| CheckConstraint
| PrimaryKeyConstraint
| BindCountMismatch
| NullFetchedNoIndicator.

Inductive exn : Type :=
| soci_error (why : SqlFailure)
| runtime_error (what : string)
| xdr_wrong_union.

Inductive Result (A : Type) : Type :=
| Ok (a : A)
| Err (e : exn).
Arguments Ok {A} a.
Arguments Err {A} e.

Definition rbind {A B} (r : Result A) (k : A -> Result B) : Result B :=
  match r with
  | Ok a => k a
  | Err e => Err e
  end.

Notation "x <-- r ;; k" := (rbind r (fun x => k))
  (at level 61, r at next level, right associativity).

(** ** XDR data: currencies, prices, offer entries *)

Definition uint256 : Type := list byte.
Definition CurrencyCode : Type := list byte.

Inductive CurrencyType : Type := NATIVE | ISO4217.

Record ISOCurrencyIssuer : Type := mkISOCurrencyIssuer {
  currencyCode : CurrencyCode;
  issuer : uint256
}.

(** The XDR union [Currency]: the arm [isoCI] exists only under the
    discriminant [ISO4217]. *)
Inductive Currency : Type :=
| CurrencyNative
| CurrencyIso (ci : ISOCurrencyIssuer).

Definition type (c : Currency) : CurrencyType :=
  match c with
  | CurrencyNative => NATIVE
  | CurrencyIso _ => ISO4217
  end.

(** Reading the arm of a union whose discriminant selects another arm
    throws. *)
Definition isoCI (c : Currency) : Result ISOCurrencyIssuer :=
  match c with
  | CurrencyIso ci => Ok ci
  | CurrencyNative => Err xdr_wrong_union
  end.

Record Price : Type := mkPrice {
  n : Z;
  d : Z
}.

Record OfferEntry : Type := mkOfferEntry {
  accountID : uint256;
  sequence : Z;
  takerPays : Currency;
  takerGets : Currency;
  amount : Z;
  price : Price;
  flags : Z
}.

Record OfferFrame : Type := mkOfferFrame {
  mEntry : OfferEntry;
  mIndex : uint256
}.

Definition CurrencyType_eqb (a b : CurrencyType) : bool :=
  match a, b with
  | NATIVE, NATIVE | ISO4217, ISO4217 => true
  | _, _ => false
  end.

(** ** Fixed-width integers *)

Definition wrap_unsigned (w : Z) (x : Z) : Z := x mod 2 ^ w.

Definition wrap_signed (w : Z) (x : Z) : Z :=
  (x + 2 ^ (w - 1)) mod 2 ^ w - 2 ^ (w - 1).

Definition INT32_MAX : Z := 2 ^ 31 - 1.
Definition INT64_MAX : Z := 2 ^ 63 - 1.

(** ** The ordering key of a price *)

(** Modelled from the spec: [OFFER_PRICE_DIVISOR] is declared in
    OfferFrame.h, which is not part of the sources at hand.  The spec names
    it [SCALE], "a fixed large constant (the scale factor used consistently
    across all nodes -- e.g. 10^7)". *)
Definition OFFER_PRICE_DIVISOR : Z := 10000000.

(** Modelled from the spec: [bigDivide] lives in util/types, which is not
    part of the sources at hand.  The spec: "computes
    floor(numerator * SCALE / denominator) ... using an intermediate
    precision wide enough to avoid overflow for the full int32 x SCALE range
    (128-bit or equivalent wide multiply-then-divide)".  The product is held
    in an unsigned 128-bit intermediate and the quotient is returned as an
    int64. *)
Definition bigDivide (A B C : Z) : Z :=
  let a := wrap_unsigned 128 A in
  let b := wrap_unsigned 128 B in
  let c := wrap_unsigned 128 C in
  let x := wrap_unsigned 128 (a * b) / c in
  wrap_signed 64 x.

Definition computePrice (f : OfferFrame) : Z :=
  bigDivide (n (price (mEntry f))) OFFER_PRICE_DIVISOR (d (price (mEntry f))).

(** ** Text forms of account identifiers and currency codes *)

Inductive Base58CheckVersionByte : Type := VER_ACCOUNT_ID.

(** Modelled from the spec: crypto/Base58 and util/types are not part of the
    sources at hand, so the four conversions [OfferFrame] calls are taken as
    an interface.  The spec: "a reversible mapping between the 32-byte
    account identifier and its external textual form ...
    encodeAccount(bytes) -> text / decodeAccount(text) -> bytes, failing
    with MalformedAccount on invalid input"; a currency code is "fixed-width"
    and is stored as text. *)
Class Codec : Type := {
  toBase58Check : Base58CheckVersionByte -> uint256 -> string;
  fromBase58Check256 : Base58CheckVersionByte -> string -> option uint256;
  currencyCodeToStr : CurrencyCode -> string;
  strToCurrencyCode : string -> CurrencyCode
}.

(** The conversions undo each other on what the code writes. *)
Class CodecLaws (codec : Codec) : Prop := {
  fromBase58Check256_toBase58Check :
    forall v a, fromBase58Check256 v (toBase58Check v a) = Some a;
  strToCurrencyCode_currencyCodeToStr :
    forall c, strToCurrencyCode (currencyCodeToStr c) = c
}.

(** ** The table [Offers] *)

Inductive value : Type :=
| VInt (z : Z)
| VText (s : string).

Module Offers.

(** One row; [None] is SQL NULL. *)
Record Row : Type := mkRow {
  accountID : option string;
  sequence : option Z;
  paysIsoCurrency : option string;
  paysIssuer : option string;
  getsIsoCurrency : option string;
  getsIssuer : option string;
  amount : option Z;
  priceN : option Z;
  priceD : option Z;
  flags : option Z;
  price : option Z
}.

(** The row of an INSERT before any column is given a value. *)
Definition all_null : Row :=
  mkRow None None None None None None None None None None None.

Definition text_or_mismatch (c : string) (v : value) (k : string -> Row)
  : Result Row :=
  match v with
  | VText s => Ok (k s)
  | VInt _ => Err (soci_error (DatatypeMismatch c))
  end.

Definition int_or_mismatch (c : string) (v : value) (k : Z -> Row)
  : Result Row :=
  match v with
  | VInt z => Ok (k z)
  | VText _ => Err (soci_error (DatatypeMismatch c))
  end.

(** Give column [c] the value [v]; a name that is not a column of the
    table makes the statement fail. *)
Definition set (c : string) (v : value) (r : Row) : Result Row :=
  let '(mkRow a s pc pi gc gi am pn pd fl pr) := r in
  if (c =? "accountID")%string then
    text_or_mismatch c v (fun x => mkRow (Some x) s pc pi gc gi am pn pd fl pr)
  else if (c =? "sequence")%string then
    int_or_mismatch c v (fun x => mkRow a (Some x) pc pi gc gi am pn pd fl pr)
  else if (c =? "paysIsoCurrency")%string then
    text_or_mismatch c v (fun x => mkRow a s (Some x) pi gc gi am pn pd fl pr)
  else if (c =? "paysIssuer")%string then
    text_or_mismatch c v (fun x => mkRow a s pc (Some x) gc gi am pn pd fl pr)
  else if (c =? "getsIsoCurrency")%string then
    text_or_mismatch c v (fun x => mkRow a s pc pi (Some x) gi am pn pd fl pr)
  else if (c =? "getsIssuer")%string then
    text_or_mismatch c v (fun x => mkRow a s pc pi gc (Some x) am pn pd fl pr)
  else if (c =? "amount")%string then
    int_or_mismatch c v (fun x => mkRow a s pc pi gc gi (Some x) pn pd fl pr)
  else if (c =? "priceN")%string then
    int_or_mismatch c v (fun x => mkRow a s pc pi gc gi am (Some x) pd fl pr)
  else if (c =? "priceD")%string then
    int_or_mismatch c v (fun x => mkRow a s pc pi gc gi am pn (Some x) fl pr)
  else if (c =? "flags")%string then
    int_or_mismatch c v (fun x => mkRow a s pc pi gc gi am pn pd (Some x) pr)
  else if (c =? "price")%string then
    int_or_mismatch c v (fun x => mkRow a s pc pi gc gi am pn pd fl (Some x))
  else Err (soci_error (NoSuchColumn c)).

(** Is column [c] NULL in [r]?  (A name that is no column counts as
    NULL.) *)
Definition is_null (c : string) (r : Row) : bool :=
  let absent {A} (x : option A) :=
    match x with Some _ => false | None => true end in
  if (c =? "accountID")%string then absent (accountID r)
  else if (c =? "sequence")%string then absent (sequence r)
  else if (c =? "paysIsoCurrency")%string then absent (paysIsoCurrency r)
  else if (c =? "paysIssuer")%string then absent (paysIssuer r)
  else if (c =? "getsIsoCurrency")%string then absent (getsIsoCurrency r)
  else if (c =? "getsIssuer")%string then absent (getsIssuer r)
  else if (c =? "amount")%string then absent (amount r)
  else if (c =? "priceN")%string then absent (priceN r)
  else if (c =? "priceD")%string then absent (priceD r)
  else if (c =? "flags")%string then absent (flags r)
  else if (c =? "price")%string then absent (price r)
  else true.

End Offers.

Inductive SqlType : Type :=
| INT
| BIGINT
| CHARACTER (len : nat).

Record ColumnDef : Type := mkColumnDef {
  col_name : string;
  col_type : SqlType;
  col_not_null : bool
}.

(** [kSQLCreateStatement]: the columns of CREATE TABLE Offers, every one of
    them declared NOT NULL. *)
Definition kSQLCreateStatement : list ColumnDef :=
  [ mkColumnDef "accountID" (CHARACTER 64) true;
    mkColumnDef "sequence" INT true;
    mkColumnDef "paysIsoCurrency" (CHARACTER 4) true;
    mkColumnDef "paysIssuer" (CHARACTER 64) true;
    mkColumnDef "getsIsoCurrency" (CHARACTER 4) true;
    mkColumnDef "getsIssuer" (CHARACTER 64) true;
    mkColumnDef "amount" BIGINT true;
    mkColumnDef "priceN" INT true;
    mkColumnDef "priceD" INT true;
    mkColumnDef "flags" INT true;
    mkColumnDef "price" BIGINT true ].

(** CHECK (sequence >= 0); a CHECK on NULL does not fail. *)
Definition check_sequence (r : Offers.Row) : bool :=
  match Offers.sequence r with
  | Some s => 0 <=? s
  | None => true
  end.

Definition option_eqb {A} (eqb : A -> A -> bool) (x y : option A) : bool :=
  match x, y with
  | Some a, Some b => eqb a b
  | _, _ => false
  end.

(** PRIMARY KEY (accountID, sequence): do two rows carry the same key? *)
Definition same_primary_key (r1 r2 : Offers.Row) : bool :=
  option_eqb String.eqb (Offers.accountID r1) (Offers.accountID r2)
  && option_eqb Z.eqb (Offers.sequence r1) (Offers.sequence r2).

(** The first NOT NULL column of the table that [r] leaves NULL. *)
Fixpoint not_null_violation (cols : list ColumnDef) (r : Offers.Row)
  : option string :=
  match cols with
  | [] => None
  | c :: cols' =>
      if col_not_null c && Offers.is_null (col_name c) r
      then Some (col_name c)
      else not_null_violation cols' r
  end.

(** The NOT NULL and CHECK constraints of the table on one row. *)
Definition row_constraints (r : Offers.Row) : Result unit :=
  match not_null_violation kSQLCreateStatement r with
  | Some c => Err (soci_error (NotNullConstraint c))
  | None =>
      if check_sequence r then Ok tt
      else Err (soci_error CheckConstraint)
  end.

(** The PRIMARY KEY constraint: no stored row carries the key of [r]. *)
Definition key_constraint (r : Offers.Row) (stored : list Offers.Row)
  : Result unit :=
  if existsb (same_primary_key r) stored
  then Err (soci_error PrimaryKeyConstraint)
  else Ok tt.

(** The database: the rows of table [Offers], or [None] while the table
    does not exist. *)
Definition Database : Type := option (list Offers.Row).

(** ** SQL statements *)

(** A WHERE clause is a test on a row.  A comparison with NULL is not
    true. *)
Definition text_is (col : option string) (x : string) : bool :=
  match col with
  | Some s => (s =? x)%string
  | None => false
  end.

Definition int_is (col : option Z) (x : Z) : bool :=
  match col with
  | Some z => (z =? x)%Z
  | None => false
  end.

Definition IS_NULL {A} (col : option A) : bool :=
  match col with
  | Some _ => false
  | None => true
  end.

(** Bind the values of a statement to the columns it names, in order. *)
Fixpoint bind_columns (cols : list string) (vals : list value)
  (r : Offers.Row) : Result Offers.Row :=
  match cols, vals with
  | [], [] => Ok r
  | c :: cols', v :: vals' =>
      r' <-- Offers.set c v r ;; bind_columns cols' vals' r'
  | _, _ => Err (soci_error BindCountMismatch)
  end.

(** INSERT into Offers (cols) values (vals).  Returns the number of
    affected rows. *)
Definition sql_insert (cols : list string) (vals : list value)
  (db : Database) : Result nat * Database :=
  match db with
  | None => (Err (soci_error NoSuchTable), db)
  | Some stored =>
      match (r <-- bind_columns cols vals Offers.all_null ;;
             _ <-- row_constraints r ;;
             _ <-- key_constraint r stored ;;
             Ok r) with
      | Ok r => (Ok 1%nat, Some (stored ++ [r]))
      | Err e => (Err e, db)
      end
  end.

(** The rows of an UPDATE: a row the WHERE clause selects gets the SET
    columns assigned and must still meet the NOT NULL and CHECK
    constraints.  (The only UPDATE of the program assigns no key column.) *)
Fixpoint update_rows (cols : list string) (vals : list value)
  (where_ : Offers.Row -> bool) (stored : list Offers.Row)
  : Result (list Offers.Row) :=
  match stored with
  | [] => Ok []
  | r :: rest =>
      if where_ r then
        r' <-- bind_columns cols vals r ;;
        _ <-- row_constraints r' ;;
        rest' <-- update_rows cols vals where_ rest ;;
        Ok (r' :: rest')
      else
        rest' <-- update_rows cols vals where_ rest ;;
        Ok (r :: rest')
  end.

Definition affected (where_ : Offers.Row -> bool) (stored : list Offers.Row)
  : nat :=
  List.length (filter where_ stored).

(** UPDATE Offers SET cols = vals WHERE where_. *)
Definition sql_update (cols : list string) (vals : list value)
  (where_ : Offers.Row -> bool) (db : Database) : Result nat * Database :=
  match db with
  | None => (Err (soci_error NoSuchTable), db)
  | Some stored =>
      match update_rows cols vals where_ stored with
      | Ok stored' => (Ok (affected where_ stored), Some stored')
      | Err e => (Err e, db)
      end
  end.

(** DELETE FROM Offers WHERE where_. *)
Definition sql_delete (where_ : Offers.Row -> bool) (db : Database)
  : Result nat * Database :=
  match db with
  | None => (Err (soci_error NoSuchTable), db)
  | Some stored =>
      (Ok (affected where_ stored),
       Some (filter (fun r => negb (where_ r)) stored))
  end.

(** The order in which a SELECT without ORDER BY hands out the rows it
    selects is the choice of the backend (its scan of the table, or of an
    index): [select_order] maps the selected rows, given in storage order,
    to the order in which the statement yields them. *)
Class Backend : Type := {
  select_order : list Offers.Row -> list Offers.Row
}.

(** Whatever the order, the statement yields the selected rows, each
    once. *)
Class BackendLaws (backend : Backend) : Prop := {
  select_order_Permutation :
    forall rows, Permutation (select_order rows) rows
}.

(** SELECT ... FROM Offers WHERE where_, with no ORDER BY. *)
Definition sql_select {backend : Backend} (where_ : Offers.Row -> bool)
  (db : Database) : Result (list Offers.Row) :=
  match db with
  | None => Err (soci_error NoSuchTable)
  | Some stored => Ok (select_order (filter where_ stored))
  end.

(** *** ORDER BY price, sequence, accountID *)

(** NULL sorts before every value. *)
Definition compare_option {A} (cmp : A -> A -> comparison)
  (x y : option A) : comparison :=
  match x, y with
  | None, None => Eq
  | None, Some _ => Lt
  | Some _, None => Gt
  | Some a, Some b => cmp a b
  end.

(** Compare first components first, second components on a tie. *)
Definition lexicographic {A B} (cmpA : A -> A -> comparison)
  (cmpB : B -> B -> comparison) (x y : A * B) : comparison :=
  match cmpA (fst x) (fst y) with
  | Eq => cmpB (snd x) (snd y)
  | c => c
  end.

(** The three sort columns in the order the statement lists them. *)
Definition sort_key (r : Offers.Row) : option Z * (option Z * option string) :=
  (Offers.price r, (Offers.sequence r, Offers.accountID r)).

(** Numbers compare by value, text byte by byte. *)
Definition compare_keys
  : option Z * (option Z * option string) ->
    option Z * (option Z * option string) -> comparison :=
  lexicographic (compare_option Z.compare)
    (lexicographic (compare_option Z.compare)
       (compare_option String.compare)).

Definition compare_rows (r1 r2 : Offers.Row) : comparison :=
  compare_keys (sort_key r1) (sort_key r2).

Definition row_leb (r1 r2 : Offers.Row) : bool :=
  match compare_rows r1 r2 with
  | Gt => false
  | _ => true
  end.

Fixpoint insert_sorted (r : Offers.Row) (l : list Offers.Row)
  : list Offers.Row :=
  match l with
  | [] => [r]
  | x :: l' => if row_leb r x then r :: l else x :: insert_sorted r l'
  end.

Definition order_by_price_sequence_accountID (l : list Offers.Row)
  : list Offers.Row :=
  fold_right insert_sorted [] l.

(** LIMIT o, n: skip [o] rows, then at most [n] rows. *)
Definition limit (o n : nat) (l : list Offers.Row) : list Offers.Row :=
  firstn n (skipn o l).

(** ** The ledger delta *)

Inductive DeltaEntry : Type :=
| Added (f : OfferFrame)
| Modified (f : OfferFrame)
| Deleted (f : OfferFrame).

(** Modelled from the spec: LedgerDelta.h is not part of the sources at
    hand.  The spec's change sink: "onAdd(entity), onModify(entity),
    onDelete(entity)", which "records an intended change"; the delta is the
    list of the changes recorded so far, oldest first. *)
Definition LedgerDelta : Type := list DeltaEntry.

Definition addEntry (f : OfferFrame) (delta : LedgerDelta) : LedgerDelta :=
  delta ++ [Added f].
Definition modEntry (f : OfferFrame) (delta : LedgerDelta) : LedgerDelta :=
  delta ++ [Modified f].
Definition deleteEntry (f : OfferFrame) (delta : LedgerDelta) : LedgerDelta :=
  delta ++ [Deleted f].

(** ** The index of an offer *)

Inductive Endianness : Type := LittleEndian | BigEndian.

Definition byte_of_Z (z : Z) : byte :=
  match Byte.of_N (Z.to_N (Z.land z 255)) with
  | Some b => b
  | None => x00
  end.

Definition little_endian_uint32 (x : Z) : list byte :=
  [ byte_of_Z x; byte_of_Z (Z.shiftr x 8);
    byte_of_Z (Z.shiftr x 16); byte_of_Z (Z.shiftr x 24) ].

(** [ByteSlice(&x, sizeof(x))] for a uint32 [x]: the four bytes of [x] as
    they lie in the memory of the host. *)
Definition ByteSlice_uint32 (host : Endianness) (x : Z) : list byte :=
  match host with
  | LittleEndian => little_endian_uint32 x
  | BigEndian => rev (little_endian_uint32 x)
  end.

(** What [calculateIndex] feeds to the hasher: the account identifier, then
    the raw bytes of [sequence]. *)
Definition calculateIndex_input (host : Endianness) (f : OfferFrame)
  : list byte :=
  accountID (mEntry f) ++ ByteSlice_uint32 host (sequence (mEntry f)).

Section Index.

(** Modelled from the spec: crypto/SHA.h is not part of the sources at
    hand; the spec's [Hash] with "a fixed 32-byte output".  [SHA256] maps
    all the bytes added to a hasher to the digest [finish] returns. *)
Variable SHA256 : list byte -> uint256.

Definition calculateIndex (host : Endianness) (f : OfferFrame)
  : OfferFrame :=
  mkOfferFrame (mEntry f) (SHA256 (calculateIndex_input host f)).

End Index.

(** ** Loading and storing offers *)

Definition zero256 : uint256 := repeat x00 32.

(** [OfferFrame()]: an offer entry with every field zero. *)
Definition OfferFrame_default : OfferFrame :=
  mkOfferFrame
    (mkOfferEntry zero256 0 CurrencyNative CurrencyNative 0 (mkPrice 0 0) 0)
    zero256.

(** [get_affected_rows() != 1] throws. *)
Definition affected_rows_check (count : nat) : Result unit :=
  if Nat.eqb count 1 then Ok tt
  else Err (runtime_error "could not update SQL").

(** The branches of the INSERT in [storeAdd]. *)
Inductive InsertBranch : Type :=
| GetsNative
| PaysNative
| BothIssued.

Section OfferFrame.

Context {codec : Codec}.
Context {backend : Backend}.

(** *** Reading rows *)

(** [into(x)] without an indicator throws on NULL. *)
Definition fetch_into {A} (col : option A) : Result A :=
  match col with
  | Some a => Ok a
  | None => Err (soci_error NullFetchedNoIndicator)
  end.

Definition account_of_text (s : string) : Result uint256 :=
  match fromBase58Check256 VER_ACCOUNT_ID s with
  | Some a => Ok a
  | None => Err (runtime_error "fromBase58Check256")
  end.

(** One leg of a fetched row: [isoCurrency] is [Some] when its indicator
    is [i_ok]. *)
Definition readCurrency (isoCurrency : option string) (issuerText : string)
  : Result Currency :=
  match isoCurrency with
  | Some code =>
      iss <-- account_of_text issuerText ;;
      Ok (CurrencyIso (mkISOCurrencyIssuer (strToCurrencyCode code) iss))
  | None => Ok CurrencyNative
  end.

(** The body of the loop of [loadOffers] for one row of the result set:
    the fetch into the bound variables, then the decoding into the
    frame. *)
Definition decodeRow (r : Offers.Row) : Result OfferFrame :=
  accountID <-- fetch_into (Offers.accountID r) ;;
  sequence <-- fetch_into (Offers.sequence r) ;;
  let paysIsoCurrency := Offers.paysIsoCurrency r in
  paysIssuer <-- fetch_into (Offers.paysIssuer r) ;;
  let getsIsoCurrency := Offers.getsIsoCurrency r in
  getsIssuer <-- fetch_into (Offers.getsIssuer r) ;;
  amount <-- fetch_into (Offers.amount r) ;;
  priceN <-- fetch_into (Offers.priceN r) ;;
  priceD <-- fetch_into (Offers.priceD r) ;;
  flags <-- fetch_into (Offers.flags r) ;;
  account <-- account_of_text accountID ;;
  takerPays <-- readCurrency paysIsoCurrency paysIssuer ;;
  takerGets <-- readCurrency getsIsoCurrency getsIssuer ;;
  Ok (mkOfferFrame
        (mkOfferEntry account sequence takerPays takerGets amount
           (mkPrice priceN priceD) flags)
        zero256).

(** [loadOffers(prep, offerProcessor)] over the result set of [prep]:
    [offerProcessor] acts on the state [S] its closure captures.  An
    exception ends the loop and keeps what was done so far. *)
Fixpoint loadOffers {S : Type} (result_set : list Offers.Row)
  (offerProcessor : OfferFrame -> S -> S) (s : S) : Result unit * S :=
  match result_set with
  | [] => (Ok tt, s)
  | r :: rest =>
      match decodeRow r with
      | Ok offer => loadOffers rest offerProcessor (offerProcessor offer s)
      | Err e => (Err e, s)
      end
  end.

Definition where_key (accStr : string) (seq : Z) (r : Offers.Row) : bool :=
  text_is (Offers.accountID r) accStr && int_is (Offers.sequence r) seq.

(** Returns [res] and the final value of [retOffer]. *)
Definition loadOffer (accountID : uint256) (seq : Z) (retOffer : OfferFrame)
  (db : Database) : Result bool * OfferFrame :=
  let accStr := toBase58Check VER_ACCOUNT_ID accountID in
  match sql_select (where_key accStr seq) db with
  | Err e => (Err e, retOffer)
  | Ok result_set =>
      match loadOffers result_set
              (fun offer _ => (offer, true)) (retOffer, false) with
      | (Ok _, (ret, res)) => (Ok res, ret)
      | (Err e, (ret, _)) => (Err e, ret)
      end
  end.

(** The WHERE clause of [loadBestOffers] for one leg; [isoCI] is read
    only on the side where [type() == NATIVE] is false. *)
Definition where_pays (pays : Currency) (r : Offers.Row) : bool :=
  match pays with
  | CurrencyNative => IS_NULL (Offers.paysIssuer r)
  | CurrencyIso ci =>
      let payCurrencyCode := currencyCodeToStr (currencyCode ci) in
      let b58PIssuer := toBase58Check VER_ACCOUNT_ID (issuer ci) in
      text_is (Offers.paysIsoCurrency r) payCurrencyCode
      && text_is (Offers.paysIssuer r) b58PIssuer
  end.

Definition where_gets (gets : Currency) (r : Offers.Row) : bool :=
  match gets with
  | CurrencyNative => IS_NULL (Offers.getsIssuer r)
  | CurrencyIso ci =>
      let getCurrencyCode := currencyCodeToStr (currencyCode ci) in
      let b58GIssuer := toBase58Check VER_ACCOUNT_ID (issuer ci) in
      text_is (Offers.getsIsoCurrency r) getCurrencyCode
      && text_is (Offers.getsIssuer r) b58GIssuer
  end.

(** The rows the statement of [loadBestOffers] selects, in its order. *)
Definition bestOffers_rows (numOffers offset : nat) (pays gets : Currency)
  (stored : list Offers.Row) : list Offers.Row :=
  limit offset numOffers
    (order_by_price_sequence_accountID
       (filter (fun r => where_pays pays r && where_gets gets r) stored)).

(** Returns the final value of [retOffers]. *)
Definition loadBestOffers (numOffers offset : nat) (pays gets : Currency)
  (retOffers : list OfferFrame) (db : Database)
  : Result unit * list OfferFrame :=
  match db with
  | None => (Err (soci_error NoSuchTable), retOffers)
  | Some stored =>
      loadOffers (bestOffers_rows numOffers offset pays gets stored)
        (fun offer retOffers => retOffers ++ [offer]) retOffers
  end.

Definition loadOffers_account (accountID : uint256)
  (retOffers : list OfferFrame) (db : Database)
  : Result unit * list OfferFrame :=
  let accStr := toBase58Check VER_ACCOUNT_ID accountID in
  match sql_select (fun r => text_is (Offers.accountID r) accStr) db with
  | Err e => (Err e, retOffers)
  | Ok result_set =>
      loadOffers result_set (fun offer retOffers => retOffers ++ [offer]) retOffers
  end.

(** *** Writing rows *)

Definition storeDelete (f : OfferFrame) (delta : LedgerDelta) (db : Database)
  : Result unit * LedgerDelta * Database :=
  let b58AccountID := toBase58Check VER_ACCOUNT_ID (accountID (mEntry f)) in
  match sql_delete (where_key b58AccountID (sequence (mEntry f))) db with
  | (Err e, db') => (Err e, delta, db')
  | (Ok _, db') => (Ok tt, deleteEntry f delta, db')
  end.

Definition storeChange (f : OfferFrame) (delta : LedgerDelta) (db : Database)
  : Result unit * LedgerDelta * Database :=
  let o := mEntry f in
  let b58AccountID := toBase58Check VER_ACCOUNT_ID (accountID o) in
  match sql_update
          ["amount"; "priceN"; "priceD"; "price"]
          [VInt (amount o); VInt (n (price o)); VInt (d (price o));
           VInt (computePrice f)]
          (where_key b58AccountID (sequence o)) db with
  | (Err e, db') => (Err e, delta, db')
  | (Ok count, db') =>
      match affected_rows_check count with
      | Err e => (Err e, delta, db')
      | Ok _ => (Ok tt, modEntry f delta, db')
      end
  end.

(** Which INSERT [storeAdd] builds: the if / else-if / else chain on the
    types of the two legs. *)
Definition storeAdd_branch (f : OfferFrame) : InsertBranch :=
  if CurrencyType_eqb (type (takerGets (mEntry f))) NATIVE then GetsNative
  else if CurrencyType_eqb (type (takerPays (mEntry f))) NATIVE
       then PaysNative
       else BothIssued.

(** The INSERT of each branch: the columns it names and, in the order of
    the [use] clauses, the values it binds to them.  Every [isoCI()] the
    branch evaluates is a read of that leg's issued arm. *)
Definition storeAdd_statement (f : OfferFrame)
  : Result (list string * list value) :=
  let o := mEntry f in
  let b58AccountID := toBase58Check VER_ACCOUNT_ID (accountID o) in
  match storeAdd_branch f with
  | GetsNative =>
      pays <-- isoCI (takerPays o) ;;
      let b58issuer := toBase58Check VER_ACCOUNT_ID (issuer pays) in
      let currencyCode := currencyCodeToStr (currencyCode pays) in
      Ok (["accountID"; "sequence"; "paysIsoCurrency"; "paysIssuer";
           "amount"; "priceN"; "priceP"; "price"; "flags"],
          [VText b58AccountID; VInt (sequence o);
           VText b58issuer; VText currencyCode; VInt (amount o);
           VInt (n (price o)); VInt (d (price o));
           VInt (computePrice f); VInt (flags o)])
  | PaysNative =>
      gets <-- isoCI (takerGets o) ;;
      let b58issuer := toBase58Check VER_ACCOUNT_ID (issuer gets) in
      let currencyCode := currencyCodeToStr (currencyCode gets) in
      Ok (["accountID"; "sequence"; "getsIsoCurrency"; "getsIssuer";
           "amount"; "priceN"; "priceD"; "price"; "flags"],
          [VText b58AccountID; VInt (sequence o);
           VText b58issuer; VText currencyCode; VInt (amount o);
           VInt (n (price o)); VInt (d (price o));
           VInt (computePrice f); VInt (flags o)])
  | BothIssued =>
      pays <-- isoCI (takerPays o) ;;
      let b58PaysIssuer := toBase58Check VER_ACCOUNT_ID (issuer pays) in
      let paysIsoCurrency := currencyCodeToStr (currencyCode pays) in
      gets <-- isoCI (takerGets o) ;;
      let b58GetsIssuer := toBase58Check VER_ACCOUNT_ID (issuer gets) in
      let getsIsoCurrency := currencyCodeToStr (currencyCode gets) in
      Ok (["accountID"; "sequence";
           "paysIsoCurrency"; "paysIssuer"; "getsIsoCurrency"; "getsIssuer";
           "amount"; "priceN"; "priceD"; "price"; "flags"],
          [VText b58AccountID; VInt (sequence o);
           VText paysIsoCurrency; VText b58PaysIssuer;
           VText getsIsoCurrency; VText b58GetsIssuer;
           VInt (amount o);
           VInt (n (price o)); VInt (d (price o));
           VInt (computePrice f); VInt (flags o)])
  end.

Definition storeAdd (f : OfferFrame) (delta : LedgerDelta) (db : Database)
  : Result unit * LedgerDelta * Database :=
  match storeAdd_statement f with
  | Err e => (Err e, delta, db)
  | Ok (cols, vals) =>
      match sql_insert cols vals db with
      | (Err e, db') => (Err e, delta, db')
      | (Ok count, db') =>
          match affected_rows_check count with
          | Err e => (Err e, delta, db')
          | Ok _ => (Ok tt, addEntry f delta, db')
          end
      end
  end.

(** DROP TABLE IF EXISTS Offers, then [kSQLCreateStatement]. *)
Definition dropAll (db : Database) : Database := Some [].

End OfferFrame.

(** ** Vocabulary of the statements *)

(** What makes a comparison function a total order. *)
Record comparison_laws {A : Type} (cmp : A -> A -> comparison) : Prop := {
  cmp_antisym : forall a b, cmp a b = CompOpp (cmp b a);
  cmp_eq : forall a b, cmp a b = Eq -> a = b;
  cmp_lt_trans : forall a b c, cmp a b = Lt -> cmp b c = Lt -> cmp a c = Lt
}.

(** Ascending order of two rows as the query sorts them. *)
Definition ascending (r1 r2 : Offers.Row) : Prop := row_leb r1 r2 = true.

(** Ascending order of two (ordering key, sequence, accountID) triples, each
    component breaking the ties of the one before it. *)
Definition triple_ascending (p1 s1 : Z) (a1 : string) (p2 s2 : Z) (a2 : string)
  : Prop :=
  p1 < p2 \/
  (p1 = p2 /\ (s1 < s2 \/ (s1 = s2 /\ String.leb a1 a2 = true))).

(** A row the table of [kSQLCreateStatement] can hold. *)
Definition meets_schema (r : Offers.Row) : Prop := row_constraints r = Ok tt.

(** The error taxonomy of the specification. *)
Inductive StorageError : Type :=
| NotFound
| DuplicateKey
| PersistenceFailure
| MalformedCurrency
| MalformedAccount.

Inductive Leg : Type := Pays | Gets.

Definition leg_currency (f : OfferFrame) (l : Leg) : Currency :=
  match l with
  | Pays => takerPays (mEntry f)
  | Gets => takerGets (mEntry f)
  end.

(** The legs whose [isoCI()] arm each branch of [storeAdd] reads. *)
Definition isoCI_reads (b : InsertBranch) : list Leg :=
  match b with
  | GetsNative => [Pays]
  | PaysNative => [Gets]
  | BothIssued => [Pays; Gets]
  end.

Section Vocabulary.

Context {codec : Codec}.

(** A row whose columns [loadOffers] can fetch and decode. *)
Definition readable (r : Offers.Row) : Prop :=
  exists f, decodeRow r = Ok f.

(** The row carries the key (accountID, sequence). *)
Definition has_key (accountID : uint256) (seq : Z) (r : Offers.Row) : Prop :=
  Offers.accountID r = Some (toBase58Check VER_ACCOUNT_ID accountID)
  /\ Offers.sequence r = Some seq.

(** A stored leg matches a filter currency: by currency code and issuer,
    or, for the native filter, by being the null pair. *)
Definition leg_matches (filter : Currency) (code issuerText : option string)
  : Prop :=
  match filter with
  | CurrencyNative => code = None /\ issuerText = None
  | CurrencyIso ci =>
      code = Some (currencyCodeToStr (currencyCode ci))
      /\ issuerText = Some (toBase58Check VER_ACCOUNT_ID (issuer ci))
  end.

Definition row_matches (pays gets : Currency) (r : Offers.Row) : Prop :=
  leg_matches pays (Offers.paysIsoCurrency r) (Offers.paysIssuer r)
  /\ leg_matches gets (Offers.getsIsoCurrency r) (Offers.getsIssuer r).

(** Decoding of one leg from its two columns: the fetch of the issuer
    column, then [readCurrency]. *)
Definition decodeCurrency (code issuerText : option string)
  : Result Currency :=
  t <-- fetch_into issuerText ;; readCurrency code t.

(** The row [r] after the UPDATE of [storeChange] for [f]. *)
Definition updated_row (f : OfferFrame) (r : Offers.Row) : Offers.Row :=
  Offers.mkRow (Offers.accountID r) (Offers.sequence r)
    (Offers.paysIsoCurrency r) (Offers.paysIssuer r)
    (Offers.getsIsoCurrency r) (Offers.getsIssuer r)
    (Some (amount (mEntry f)))
    (Some (n (price (mEntry f)))) (Some (d (price (mEntry f))))
    (Offers.flags r) (Some (computePrice f)).

(** The row the INSERT of the both-issued branch writes for [f]. *)
Definition inserted_row (f : OfferFrame) (pays gets : ISOCurrencyIssuer)
  : Offers.Row :=
  Offers.mkRow
    (Some (toBase58Check VER_ACCOUNT_ID (accountID (mEntry f))))
    (Some (sequence (mEntry f)))
    (Some (currencyCodeToStr (currencyCode pays)))
    (Some (toBase58Check VER_ACCOUNT_ID (issuer pays)))
    (Some (currencyCodeToStr (currencyCode gets)))
    (Some (toBase58Check VER_ACCOUNT_ID (issuer gets)))
    (Some (amount (mEntry f)))
    (Some (n (price (mEntry f)))) (Some (d (price (mEntry f))))
    (Some (flags (mEntry f))) (Some (computePrice f)).

End Vocabulary.

(** ** Sample data *)

(** A codec to run the code with: the bytes of an identifier or of a code,
    read as text. *)
Definition text_codec : Codec := {|
  toBase58Check := fun _ a => string_of_list_byte a;
  fromBase58Check256 := fun _ s => Some (list_byte_of_string s);
  currencyCodeToStr := string_of_list_byte;
  strToCurrencyCode := list_byte_of_string
|}.

Definition account_A : uint256 := repeat x41 32.
Definition account_B : uint256 := repeat x42 32.
Definition issuer_I : uint256 := repeat x49 32.

Definition USD : Currency :=
  CurrencyIso (mkISOCurrencyIssuer [x55; x53; x44; x20] issuer_I).
Definition EUR : Currency :=
  CurrencyIso (mkISOCurrencyIssuer [x45; x55; x52; x20] issuer_I).

Definition offer (account : uint256) (seq : Z) (pays gets : Currency)
  (amt pn pd : Z) : OfferFrame :=
  mkOfferFrame (mkOfferEntry account seq pays gets amt (mkPrice pn pd) 0)
    zero256.

Definition O1 : OfferFrame := offer account_A 5 USD EUR 100 1 2.
Definition O2 : OfferFrame := offer account_A 3 USD EUR 100 1 2.
Definition O3 : OfferFrame := offer account_B 1 USD EUR 100 1 3.

(** Account A, sequence 1, pays Native, gets USD, amount 100, price 3/1. *)
Definition offer_native_for_USD : OfferFrame :=
  offer account_A 1 CurrencyNative USD 100 3 1.

Definition offer_USD_for_native : OfferFrame :=
  offer account_A 1 USD CurrencyNative 100 3 1.

Definition offer_native_for_native : OfferFrame :=
  offer account_A 1 CurrencyNative CurrencyNative 100 3 1.

(** The table after [dropAll] and the [storeAdd] of O1, O2, O3 in turn. *)
Definition add_offer (f : OfferFrame) (st : LedgerDelta * Database)
  : LedgerDelta * Database :=
  let '(_, delta, db) := @storeAdd text_codec f (fst st) (snd st) in
  (delta, db).

Definition three_offers : LedgerDelta * Database :=
  add_offer O3 (add_offer O2 (add_offer O1 ([], @dropAll None))).

(** The three rows of that table, in storage order. *)
Definition three_rows : list Offers.Row :=
  let usd := mkISOCurrencyIssuer [x55; x53; x44; x20] issuer_I in
  let eur := mkISOCurrencyIssuer [x45; x55; x52; x20] issuer_I in
  [ @inserted_row text_codec O1 usd eur;
    @inserted_row text_codec O2 usd eur;
    @inserted_row text_codec O3 usd eur ].

(** A row whose pays leg has an issuer but no currency code. *)
Definition row_issuer_without_code : Offers.Row :=
  Offers.mkRow (Some "A") (Some 1) None (Some "I") (Some "USD ") (Some "I")
    (Some 100) (Some 3) (Some 1) (Some 0) (Some 30000000).

(** ** Vocabulary of the properties of the whole table *)

(** No two rows of the table carry the same primary key. *)
Fixpoint keys_unique (stored : list Offers.Row) : Prop :=
  match stored with
  | [] => True
  | r :: rest =>
      Forall (fun x => same_primary_key r x = false) rest /\ keys_unique rest
  end.

(** The ordering key a row stores is the key of the price it stores. *)
Definition price_consistent (r : Offers.Row) : Prop :=
  exists pn pd,
    Offers.priceN r = Some pn /\ Offers.priceD r = Some pd
    /\ Offers.price r = Some (bigDivide pn OFFER_PRICE_DIVISOR pd).

(** The frame [loadOffers] hands out for the entry of [f]: the index of a
    loaded frame is not computed. *)
Definition loaded (f : OfferFrame) : OfferFrame :=
  mkOfferFrame (mEntry f) zero256.

(** The entry of [old] with the amount and the price of [new]. *)
Definition changed (old new : OfferFrame) : OfferFrame :=
  mkOfferFrame
    (mkOfferEntry (accountID (mEntry old)) (sequence (mEntry old))
       (takerPays (mEntry old)) (takerGets (mEntry old))
       (amount (mEntry new)) (price (mEntry new)) (flags (mEntry old)))
    zero256.

(** The three writes of [OfferFrame]. *)
Inductive Write : Type := StoreAdd | StoreChange | StoreDelete.

Section Reachable.

Context {codec : Codec}.

Definition write (w : Write) (f : OfferFrame) (delta : LedgerDelta)
  (db : Database) : Result unit * LedgerDelta * Database :=
  match w with
  | StoreAdd => storeAdd f delta db
  | StoreChange => storeChange f delta db
  | StoreDelete => storeDelete f delta db
  end.

(** The databases the code produces: [dropAll], then any writes, whether
    they succeed or throw. *)
Inductive reachable : Database -> Prop :=
| reachable_dropAll (db : Database) : reachable (dropAll db)
| reachable_write (w : Write) (f : OfferFrame) (delta : LedgerDelta)
    (db : Database) :
    reachable db -> reachable (snd (write w f delta db)).

(** The WHERE clause of [loadOffers(accountID, ...)]. *)
Definition where_account (accountID : uint256) (r : Offers.Row) : bool :=
  text_is (Offers.accountID r) (toBase58Check VER_ACCOUNT_ID accountID).

(** The WHERE clause of [loadBestOffers]. *)
Definition where_best (pays gets : Currency) (r : Offers.Row) : bool :=
  where_pays pays r && where_gets gets r.

End Reachable.

(** A row with a NULL issuer on its gets leg, which no fetch can read. *)
Definition row_null_issuer : Offers.Row :=
  Offers.mkRow (Some "A") (Some 7) (Some "USD ") (Some "I") None None
    (Some 100) (Some 3) (Some 1) (Some 0) (Some 30000000).

Definition O2_changed : OfferFrame := offer account_A 3 EUR USD 50 1 4.

(** ** What a loaded frame holds of a row *)

Section Fields.

Context {codec : Codec}.

(** The currency [c] is the decoding of the two columns of a leg. *)
Definition leg_holds (code issuerText : option string) (c : Currency)
  : Prop :=
  match code with
  | None => c = CurrencyNative
  | Some s =>
      exists t i,
        issuerText = Some t
        /\ fromBase58Check256 VER_ACCOUNT_ID t = Some i
        /\ c = CurrencyIso (mkISOCurrencyIssuer (strToCurrencyCode s) i)
  end.

(** Every field of the entry of [f] is the column of [r] of that name,
    through the conversion of its type. *)
Definition holds_fields (r : Offers.Row) (f : OfferFrame) : Prop :=
  (exists t,
     Offers.accountID r = Some t
     /\ fromBase58Check256 VER_ACCOUNT_ID t = Some (accountID (mEntry f)))
  /\ Offers.sequence r = Some (sequence (mEntry f))
  /\ leg_holds (Offers.paysIsoCurrency r) (Offers.paysIssuer r)
       (takerPays (mEntry f))
  /\ leg_holds (Offers.getsIsoCurrency r) (Offers.getsIssuer r)
       (takerGets (mEntry f))
  /\ Offers.amount r = Some (amount (mEntry f))
  /\ Offers.priceN r = Some (n (price (mEntry f)))
  /\ Offers.priceD r = Some (d (price (mEntry f)))
  /\ Offers.flags r = Some (flags (mEntry f)).

End Fields.

(** A backend that hands out the selected rows in storage order. *)
Definition storage_order : Backend := {|
  select_order := fun rows => rows
|}.

(** A backend that hands them out last stored first. *)
Definition reverse_order : Backend := {|
  select_order := fun rows => rev rows
|}.



(** Four offers on one pair whose order by price, by sequence and by
    account all differ. *)
Definition Q1 : OfferFrame := offer account_B 1 USD EUR 100 1 2.
Definition Q2 : OfferFrame := offer account_B 9 USD EUR 100 1 3.
Definition Q3 : OfferFrame := offer account_A 1 USD EUR 100 1 2.
Definition Q4 : OfferFrame := offer account_B 0 USD EUR 100 1 2.

Definition four_offers : LedgerDelta * Database :=
  add_offer Q4 (add_offer Q3 (add_offer Q2 (add_offer Q1 ([], @dropAll None)))).

(* ================================================================= *)
(** * Theorems *)

(** ** Fixed-width arithmetic *)

Lemma wrap_unsigned_small (w x : Z) :
  0 <= x < 2 ^ w -> wrap_unsigned w x = x.
Proof. intros H. unfold wrap_unsigned. now apply Z.mod_small. Qed.

Lemma wrap_signed_small (x : Z) :
  - 2 ^ 63 <= x < 2 ^ 63 -> wrap_signed 64 x = x.
Proof.
  intros H. unfold wrap_signed.
  replace (64 - 1) with 63 by lia.
  rewrite Z.mod_small; [lia|].
  change (2 ^ 64) with (2 * 2 ^ 63). lia.
Qed.

Lemma bigDivide_exact (A B C : Z) :
  0 <= A < 2 ^ 63 -> 0 <= B < 2 ^ 63 -> 0 < C < 2 ^ 63 ->
  A * B < 2 ^ 63 ->
  bigDivide A B C = A * B / C.
Proof.
  intros HA HB HC HAB. unfold bigDivide.
  assert (H63 : 2 ^ 63 < 2 ^ 128) by (vm_compute; reflexivity).
  rewrite (wrap_unsigned_small 128 A), (wrap_unsigned_small 128 B),
    (wrap_unsigned_small 128 C) by lia.
  assert (0 <= A * B) by nia.
  rewrite (wrap_unsigned_small 128 (A * B)) by lia.
  apply wrap_signed_small.
  assert (0 <= A * B / C) by (apply Z.div_pos; lia).
  assert (A * B / C <= A * B) by (apply Z.div_le_upper_bound; nia).
  lia.
Qed.

(** C2.  For a price with numerator 0 <= n <= INT32_MAX and denominator
    0 < d <= INT32_MAX, [computePrice] is the floor of n * SCALE / d: the
    quotient q with d * q <= n * SCALE < d * (q + 1); no intermediate value
    wraps and q fits an int64.  For n = 1 and d = 3 it is 3333333. *)
Theorem computePrice_floor (f : OfferFrame) :
  let pn := n (price (mEntry f)) in
  let pd := d (price (mEntry f)) in
  0 <= pn <= INT32_MAX -> 0 < pd <= INT32_MAX ->
  computePrice f = pn * OFFER_PRICE_DIVISOR / pd
  /\ pd * computePrice f <= pn * OFFER_PRICE_DIVISOR
      < pd * (computePrice f + 1)
  /\ 0 <= computePrice f <= INT64_MAX
  /\ OFFER_PRICE_DIVISOR = 10000000
  /\ computePrice (offer account_A 1 USD EUR 100 1 3) = 3333333.
Proof.
  intros pn pd Hn Hd. unfold INT32_MAX in *.
  assert (E : computePrice f = pn * OFFER_PRICE_DIVISOR / pd).
  { unfold computePrice. fold pn pd. unfold OFFER_PRICE_DIVISOR.
    assert (2 ^ 31 * 10000000 < 2 ^ 63) by (vm_compute; reflexivity).
    assert (2 ^ 31 < 2 ^ 63) by (vm_compute; reflexivity).
    assert (10000000 < 2 ^ 63) by (vm_compute; reflexivity).
    apply bigDivide_exact; try lia. }
  rewrite E. unfold OFFER_PRICE_DIVISOR.
  assert (Hpos : 0 <= pn * 10000000) by lia.
  pose proof (Z.mul_div_le (pn * 10000000) pd ltac:(lia)).
  pose proof (Z.mul_succ_div_gt (pn * 10000000) pd ltac:(lia)).
  assert (0 <= pn * 10000000 / pd) by (apply Z.div_pos; lia).
  assert (pn * 10000000 / pd <= pn * 10000000)
    by (apply Z.div_le_upper_bound; nia).
  assert (2 ^ 31 * 10000000 < 2 ^ 63) by (vm_compute; reflexivity).
  unfold INT64_MAX.
  repeat split; try lia.
Qed.

Lemma computePrice_floor_witness :
  computePrice (offer account_A 1 USD EUR 100 1 3) = 1 * OFFER_PRICE_DIVISOR / 3.
Proof.
  apply (computePrice_floor (offer account_A 1 USD EUR 100 1 3));
    simpl; unfold INT32_MAX; lia.
Defined.

(** ** The sort order of the order-book query *)

Lemma Z_comparison_laws : comparison_laws Z.compare.
Proof.
  split.
  - intros a b. apply Z.compare_antisym.
  - intros a b. apply Z.compare_eq.
  - intros a b c. rewrite !Z.compare_lt_iff. lia.
Qed.

Lemma string_compare_lt_trans (a b c : string) :
  String.compare a b = Lt -> String.compare b c = Lt ->
  String.compare a c = Lt.
Proof.
  revert b c.
  induction a as [|x a IH]; intros [|y b] [|z c]; simpl; try easy.
  unfold Ascii.compare.
  destruct (N.compare_spec (N_of_ascii x) (N_of_ascii y)) as [Exy|Lxy|Gxy];
    try easy;
    destruct (N.compare_spec (N_of_ascii y) (N_of_ascii z)) as [Eyz|Lyz|Gyz];
    try easy; intros Hab Hbc.
  - rewrite Exy, Eyz, N.compare_refl. now apply IH with b.
  - rewrite Exy. now rewrite (proj2 (N.compare_lt_iff _ _) Lyz).
  - rewrite <- Eyz. now rewrite (proj2 (N.compare_lt_iff _ _) Lxy).
  - assert (L : (N_of_ascii x < N_of_ascii z)%N) by lia.
    now rewrite (proj2 (N.compare_lt_iff _ _) L).
Qed.

Lemma string_comparison_laws : comparison_laws String.compare.
Proof.
  split.
  - apply String.compare_antisym.
  - apply String.compare_eq_iff.
  - apply string_compare_lt_trans.
Qed.

Lemma compare_option_laws {A} (cmp : A -> A -> comparison) :
  comparison_laws cmp -> comparison_laws (compare_option cmp).
Proof.
  intros [Hanti Heq Htrans]. split.
  - intros [a|] [b|]; simpl; auto.
  - intros [a|] [b|]; simpl; try easy. intros H. f_equal. now apply Heq.
  - intros [a|] [b|] [c|]; simpl; try easy. apply Htrans.
Qed.

Lemma lexicographic_laws {A B} (cmpA : A -> A -> comparison)
  (cmpB : B -> B -> comparison) :
  comparison_laws cmpA -> comparison_laws cmpB ->
  comparison_laws (lexicographic cmpA cmpB).
Proof.
  intros [HantiA HeqA HtransA] [HantiB HeqB HtransB]. split.
  - intros [a1 b1] [a2 b2]. unfold lexicographic. simpl.
    rewrite (HantiA a1 a2). destruct (cmpA a2 a1); simpl; auto.
  - intros [a1 b1] [a2 b2]. unfold lexicographic. simpl.
    destruct (cmpA a1 a2) eqn:E; try easy.
    intros H. apply HeqA in E. apply HeqB in H. now subst.
  - intros [a1 b1] [a2 b2] [a3 b3]. unfold lexicographic. simpl.
    destruct (cmpA a1 a2) eqn:E12; try easy;
      destruct (cmpA a2 a3) eqn:E23; try easy; intros H1 H2.
    + apply HeqA in E12, E23. subst.
      assert (R : cmpA a3 a3 = Eq).
      { pose proof (HantiA a3 a3) as R. destruct (cmpA a3 a3); easy. }
      rewrite R. now apply HtransB with b2.
    + apply HeqA in E12. subst. now rewrite E23.
    + apply HeqA in E23. subst. now rewrite E12.
    + now rewrite (HtransA _ _ _ E12 E23).
Qed.

Lemma compare_keys_laws : comparison_laws compare_keys.
Proof.
  unfold compare_keys.
  repeat first [ apply lexicographic_laws | apply compare_option_laws ];
    first [ apply Z_comparison_laws | apply string_comparison_laws ].
Qed.

Lemma row_leb_total (r1 r2 : Offers.Row) :
  row_leb r1 r2 = false -> row_leb r2 r1 = true.
Proof.
  unfold row_leb, compare_rows.
  rewrite (cmp_antisym _ compare_keys_laws (sort_key r2) (sort_key r1)).
  now destruct (compare_keys (sort_key r1) (sort_key r2)).
Qed.

Lemma row_leb_trans (r1 r2 r3 : Offers.Row) :
  row_leb r1 r2 = true -> row_leb r2 r3 = true -> row_leb r1 r3 = true.
Proof.
  unfold row_leb, compare_rows.
  pose proof compare_keys_laws as [Hanti Heq Htrans].
  destruct (compare_keys (sort_key r1) (sort_key r2)) eqn:E12; try easy;
    destruct (compare_keys (sort_key r2) (sort_key r3)) eqn:E23; try easy;
    intros _ _.
  - apply Heq in E12. rewrite E12, E23. reflexivity.
  - apply Heq in E12. rewrite E12, E23. reflexivity.
  - apply Heq in E23. rewrite <- E23, E12. reflexivity.
  - now rewrite (Htrans _ _ _ E12 E23).
Qed.

(** On rows without NULL in the sort columns the order is the order of the
    triples (price, sequence, accountID). *)
Lemma row_leb_triple (r1 r2 : Offers.Row) (p1 s1 p2 s2 : Z) (a1 a2 : string) :
  sort_key r1 = (Some p1, (Some s1, Some a1)) ->
  sort_key r2 = (Some p2, (Some s2, Some a2)) ->
  (ascending r1 r2 <-> triple_ascending p1 s1 a1 p2 s2 a2).
Proof.
  intros K1 K2.
  unfold ascending, row_leb, compare_rows, triple_ascending.
  rewrite K1, K2. unfold compare_keys, lexicographic, String.leb. simpl.
  destruct (Z.compare_spec p1 p2) as [Ep|Lp|Gp];
    destruct (Z.compare_spec s1 s2) as [Es|Ls|Gs];
    destruct (String.compare a1 a2) eqn:Ea;
    intuition (try lia; try discriminate).
Qed.

Lemma insert_sorted_Permutation (r : Offers.Row) (l : list Offers.Row) :
  Permutation (insert_sorted r l) (r :: l).
Proof.
  induction l as [|x l IH]; simpl.
  - apply Permutation_refl.
  - destruct (row_leb r x).
    + apply Permutation_refl.
    + apply perm_trans with (x :: r :: l).
      * now apply perm_skip.
      * apply perm_swap.
Qed.

Lemma order_by_Permutation (l : list Offers.Row) :
  Permutation (order_by_price_sequence_accountID l) l.
Proof.
  induction l as [|x l IH]; simpl.
  - apply perm_nil.
  - apply perm_trans with (x :: order_by_price_sequence_accountID l).
    + apply insert_sorted_Permutation.
    + now apply perm_skip.
Qed.

Lemma insert_sorted_Sorted (r : Offers.Row) (l : list Offers.Row) :
  Sorted ascending l -> Sorted ascending (insert_sorted r l).
Proof.
  induction l as [|x l IH]; intros Hs; simpl.
  - repeat constructor.
  - destruct (row_leb r x) eqn:E.
    + constructor; [assumption|]. now constructor.
    + apply Sorted_inv in Hs as [Hs Hhd].
      constructor; [now apply IH|].
      destruct l as [|y l]; simpl.
      * constructor. now apply row_leb_total.
      * destruct (row_leb r y); constructor.
        -- now apply row_leb_total.
        -- now apply HdRel_inv in Hhd.
Qed.

Lemma order_by_StronglySorted (l : list Offers.Row) :
  StronglySorted ascending (order_by_price_sequence_accountID l).
Proof.
  apply Sorted_StronglySorted.
  - intros a b c. apply row_leb_trans.
  - induction l as [|x l IH]; simpl.
    + constructor.
    + now apply insert_sorted_Sorted.
Qed.

(** ** Rows the schema admits *)

Lemma meets_schema_inv (r : Offers.Row) :
  meets_schema r ->
  exists a s pc pi gc gi am pn pd fl pr,
    r = Offers.mkRow (Some a) (Some s) (Some pc) (Some pi) (Some gc) (Some gi)
          (Some am) (Some pn) (Some pd) (Some fl) (Some pr)
    /\ 0 <= s.
Proof.
  unfold meets_schema, row_constraints.
  destruct r as [a s pc pi gc gi am pn pd fl pr].
  destruct a as [a|]; [|discriminate].
  destruct s as [s|]; [|discriminate].
  destruct pc as [pc|]; [|discriminate].
  destruct pi as [pi|]; [|discriminate].
  destruct gc as [gc|]; [|discriminate].
  destruct gi as [gi|]; [|discriminate].
  destruct am as [am|]; [|discriminate].
  destruct pn as [pn|]; [|discriminate].
  destruct pd as [pd|]; [|discriminate].
  destruct fl as [fl|]; [|discriminate].
  destruct pr as [pr|]; [|discriminate].
  simpl. unfold check_sequence. simpl.
  destruct (0 <=? s) eqn:E; [|discriminate].
  intros _. exists a, s, pc, pi, gc, gi, am, pn, pd, fl, pr.
  split; [reflexivity|]. now apply Z.leb_le.
Qed.

Lemma text_is_true (col : option string) (x : string) :
  text_is col x = true <-> col = Some x.
Proof.
  destruct col as [s|]; simpl.
  - rewrite String.eqb_eq. split; congruence.
  - split; discriminate.
Qed.

Lemma int_is_true (col : option Z) (x : Z) :
  int_is col x = true <-> col = Some x.
Proof.
  destruct col as [z|]; simpl.
  - rewrite Z.eqb_eq. split; congruence.
  - split; discriminate.
Qed.

Section Reading.

Context {codec : Codec}.

Lemma where_key_has_key (accountID : uint256) (seq : Z) (r : Offers.Row) :
  where_key (toBase58Check VER_ACCOUNT_ID accountID) seq r = true
  <-> has_key accountID seq r.
Proof.
  unfold where_key, has_key.
  rewrite andb_true_iff, text_is_true, int_is_true. reflexivity.
Qed.

(** Over readable rows the loop of [loadOffers] runs to its end and hands
    every decoded row, in order, to the processor. *)
Lemma loadOffers_readable (rows : list Offers.Row) :
  Forall readable rows ->
  exists offers,
    Forall2 (fun r f => decodeRow r = Ok f) rows offers
    /\ forall (S : Type) (proc : OfferFrame -> S -> S) (s : S),
         loadOffers rows proc s
         = (Ok tt, fold_left (fun acc f => proc f acc) offers s).
Proof.
  induction rows as [|r rows IH]; intros H.
  - exists []. split; [constructor|reflexivity].
  - inversion H as [|? ? [f Hf] Hrest]; subst.
    destruct (IH Hrest) as [offers [H2 Hrun]].
    exists (f :: offers). split; [now constructor|].
    intros S proc s. simpl. rewrite Hf. apply Hrun.
Qed.

Lemma push_back_all (offers retOffers : list OfferFrame) :
  fold_left (fun acc f => acc ++ [f]) offers retOffers = retOffers ++ offers.
Proof.
  revert retOffers.
  induction offers as [|f offers IH]; intros retOffers; simpl.
  - now rewrite app_nil_r.
  - rewrite IH, <- app_assoc. reflexivity.
Qed.

Lemma keep_last (offers : list OfferFrame) (s : OfferFrame * bool) :
  fold_left (fun (_ : OfferFrame * bool) f => (f, true)) offers s
  = match rev offers with
    | [] => s
    | f :: _ => (f, true)
    end.
Proof.
  revert s. induction offers as [|f offers IH]; intros s; simpl.
  - reflexivity.
  - rewrite IH. destruct (rev offers) as [|g l]; reflexivity.
Qed.

Lemma Forall2_In_r {A B} (P : A -> B -> Prop) (l : list A) (l' : list B)
  (b : B) :
  Forall2 P l l' -> In b l' -> exists a, In a l /\ P a b.
Proof.
  induction 1 as [|x y l l' Hxy _ IH]; intros Hin.
  - destruct Hin.
  - destruct Hin as [<-|Hin].
    + exists x. split; [now left|assumption].
    + destruct (IH Hin) as [a [Ha HP]]. exists a. split; [now right|easy].
Qed.

Lemma decodeRow_legs (r : Offers.Row) (f : OfferFrame) :
  decodeRow r = Ok f ->
  decodeCurrency (Offers.paysIsoCurrency r) (Offers.paysIssuer r)
  = Ok (takerPays (mEntry f))
  /\ decodeCurrency (Offers.getsIsoCurrency r) (Offers.getsIssuer r)
     = Ok (takerGets (mEntry f)).
Proof.
  unfold decodeRow, decodeCurrency.
  destruct r as [a s pc pi gc gi am pn pd fl pr]. simpl.
  destruct a as [a|]; [|discriminate].
  destruct s as [s|]; [|discriminate].
  destruct pi as [pi|]; [|discriminate].
  destruct gi as [gi|]; [|discriminate].
  destruct am as [am|]; [|discriminate].
  destruct pn as [pn|]; [|discriminate].
  destruct pd as [pd|]; [|discriminate].
  destruct fl as [fl|]; [|discriminate].
  simpl.
  destruct (account_of_text a) as [acc|]; [|discriminate]. simpl.
  destruct (readCurrency pc pi) as [p|]; [|discriminate]. simpl.
  destruct (readCurrency gc gi) as [g|]; [|discriminate]. simpl.
  intros H. injection H as <-. split; reflexivity.
Qed.


End Reading.

(** ** Decoding a currency leg *)

(** C5 (amended).  Decoding a leg of a row read back returns Issued, with
    the row's code and issuer, when code and issuer are both present;
    returns Native when the code is absent and the issuer present, without
    any failure; fails, with the backend's error for a NULL fetched without
    indicator, when the code is present and the issuer absent.  This is the
    decoding [loadOffers] applies to both legs of every row. *)
Theorem decodeCurrency_cases {codec : Codec} :
  (forall c t i,
     fromBase58Check256 VER_ACCOUNT_ID t = Some i ->
     decodeCurrency (Some c) (Some t)
     = Ok (CurrencyIso (mkISOCurrencyIssuer (strToCurrencyCode c) i)))
  /\ (forall t, decodeCurrency None (Some t) = Ok CurrencyNative)
  /\ (forall c,
        decodeCurrency (Some c) None
        = Err (soci_error NullFetchedNoIndicator))
  /\ (forall r f,
        decodeRow r = Ok f ->
        decodeCurrency (Offers.paysIsoCurrency r) (Offers.paysIssuer r)
        = Ok (takerPays (mEntry f))
        /\ decodeCurrency (Offers.getsIsoCurrency r) (Offers.getsIssuer r)
           = Ok (takerGets (mEntry f))).
Proof.
  repeat split.
  - intros c t i Hi. unfold decodeCurrency, readCurrency, account_of_text.
    simpl. rewrite Hi. reflexivity.
  - now apply decodeRow_legs.
  - now apply decodeRow_legs.
Qed.

Lemma decodeCurrency_cases_witness :
  @decodeCurrency text_codec (Some "USD ") (Some "I")
  = Ok (CurrencyIso (mkISOCurrencyIssuer [x55; x53; x44; x20] [x49])).
Proof.
  apply (proj1 (@decodeCurrency_cases text_codec) "USD " "I" [x49]).
  reflexivity.
Defined.

(** C5 as stated fails: a row with an issuer but no code on its pays leg is
    decoded, and the leg comes out Native. *)
Lemma decode_issuer_without_code :
  Offers.paysIsoCurrency row_issuer_without_code = None
  /\ Offers.paysIssuer row_issuer_without_code = Some "I"
  /\ @decodeCurrency text_codec None (Some "I") = Ok CurrencyNative
  /\ exists f,
       @decodeRow text_codec row_issuer_without_code = Ok f
       /\ takerPays (mEntry f) = CurrencyNative.
Proof.
  repeat split. eexists. split; reflexivity.
Qed.

(** ** Point lookup *)

Lemma filter_none {A} (p : A -> bool) (l : list A) :
  (forall x, In x l -> p x = false) -> filter p l = [].
Proof.
  induction l as [|x l IH]; intros H; simpl.
  - reflexivity.
  - rewrite (H x) by now left. apply IH. intros y Hy. apply H. now right.
Qed.

Section SelectOrder.

Context {backend : Backend} `{!BackendLaws backend}.

Lemma select_order_nil : select_order [] = [].
Proof.
  apply Permutation_nil, Permutation_sym, select_order_Permutation.
Qed.

Lemma select_order_one (r : Offers.Row) : select_order [r] = [r].
Proof.
  apply Permutation_length_1_inv, Permutation_sym, select_order_Permutation.
Qed.

Lemma In_select_order (rows : list Offers.Row) (r : Offers.Row) :
  In r (select_order rows) <-> In r rows.
Proof.
  split; apply Permutation_in;
    [|apply Permutation_sym]; apply select_order_Permutation.
Qed.

End SelectOrder.

Lemma storage_order_laws : BackendLaws storage_order.
Proof. split. intros rows. apply Permutation_refl. Qed.

Lemma reverse_order_laws : BackendLaws reverse_order.
Proof. split. intros rows. apply Permutation_sym, Permutation_rev. Qed.

Section DecodedFields.

Context {codec : Codec}.

(** What [decodeRow] puts in the frame is what the row holds, column by
    column. *)
Lemma decodeRow_fields (r : Offers.Row) (f : OfferFrame) :
  decodeRow r = Ok f -> holds_fields r f.
Proof.
  unfold decodeRow, holds_fields.
  destruct r as [a s pc pi gc gi am pn pd fl pr]. simpl.
  destruct a as [a|]; [|discriminate].
  destruct s as [s|]; [|discriminate].
  destruct pi as [pi|]; [|discriminate].
  destruct gi as [gi|]; [|discriminate].
  destruct am as [am|]; [|discriminate].
  destruct pn as [pn|]; [|discriminate].
  destruct pd as [pd|]; [|discriminate].
  destruct fl as [fl|]; [|discriminate].
  simpl. unfold account_of_text at 1.
  destruct (fromBase58Check256 VER_ACCOUNT_ID a) as [acc|] eqn:Ea;
    [|discriminate]. simpl.
  destruct (readCurrency pc pi) as [p|] eqn:Ep; [|discriminate]. simpl.
  destruct (readCurrency gc gi) as [g|] eqn:Eg; [|discriminate]. simpl.
  intros H. injection H as <-. simpl.
  assert (Hleg : forall code t c,
             readCurrency code t = Ok c -> leg_holds code (Some t) c).
  { intros code t c. unfold readCurrency, account_of_text, leg_holds.
    destruct code as [x|].
    - destruct (fromBase58Check256 VER_ACCOUNT_ID t) as [i|] eqn:Ei;
        [|discriminate]. simpl.
      intros H. injection H as <-. now exists t, i.
    - intros H. now injection H as <-. }
  repeat split; try reflexivity; try (now apply Hleg).
  now exists a.
Qed.

End DecodedFields.

(** C10.  When no stored row has the key (accountID, sequence), [loadOffer]
    returns false and [retOffer] is what the caller passed.  Over a table of
    readable rows it returns, and returns true exactly when a row with the
    key exists; [retOffer] then is the decoding of such a row, and every
    field of its entry is the column of that row: the account and the
    issuers through the account conversion, the codes through the code
    conversion, a leg without code Native, and sequence, amount, numerator,
    denominator and flags as stored.  This holds in whatever order the
    backend hands out the selected rows.  On the table of O1, O2, O3 the
    lookup of (A, 3) returns O2, and the lookup of (A, 4) false. *)
Theorem loadOffer_found_iff {codec : Codec} {backend : Backend}
  `{!BackendLaws backend} (stored : list Offers.Row)
  (accountID : uint256) (seq : Z) (retOffer : OfferFrame) :
  ((forall r, In r stored -> ~ has_key accountID seq r) ->
   loadOffer accountID seq retOffer (Some stored) = (Ok false, retOffer))
  /\ (Forall readable stored ->
      exists res ret,
        loadOffer accountID seq retOffer (Some stored) = (Ok res, ret)
        /\ (res = true <-> exists r, In r stored /\ has_key accountID seq r)
        /\ (res = true ->
            exists r, In r stored /\ has_key accountID seq r
                      /\ decodeRow r = Ok ret
                      /\ holds_fields r ret))
  /\ @loadOffer text_codec storage_order account_A 3 O3 (Some three_rows)
     = (Ok true, loaded O2)
  /\ @loadOffer text_codec reverse_order account_A 3 O3 (Some three_rows)
     = (Ok true, loaded O2)
  /\ @loadOffer text_codec storage_order account_A 4 O3 (Some three_rows)
     = (Ok false, O3).
Proof.
  split; [|split; [|repeat split]].
  - intros Hnone. unfold loadOffer, sql_select.
    rewrite filter_none, select_order_nil; [reflexivity|].
    intros r Hr. specialize (Hnone r Hr).
    rewrite <- where_key_has_key in Hnone.
    now destruct (where_key _ seq r).
  - intros Hread. unfold loadOffer, sql_select.
    set (key := where_key (toBase58Check VER_ACCOUNT_ID accountID) seq).
    assert (Hsel : Forall readable (select_order (filter key stored))).
    { rewrite Forall_forall in *. intros r Hr.
      apply In_select_order, filter_In in Hr as [Hr _]. now apply Hread. }
    destruct (loadOffers_readable _ Hsel) as [offers [H2 Hrun]].
    rewrite Hrun, keep_last.
    destruct (rev offers) as [|g l] eqn:Erev.
    + exists false, retOffer. split; [reflexivity|].
      assert (offers = []) as ->.
      { rewrite <- (rev_involutive offers), Erev. reflexivity. }
      inversion H2 as [Hnil|]. split; [|discriminate].
      split; [discriminate|]. intros [r [Hr Hk]].
      apply where_key_has_key in Hk.
      assert (Hin : In r (select_order (filter key stored))).
      { apply In_select_order, filter_In. now split. }
      rewrite <- Hnil in Hin. destruct Hin.
    + exists true, g. split; [reflexivity|].
      assert (Hg : In g offers).
      { apply in_rev. rewrite Erev. now left. }
      destruct (Forall2_In_r _ _ _ _ H2 Hg) as [r [Hr Hdec]].
      apply In_select_order, filter_In in Hr as [Hr Hk].
      apply where_key_has_key in Hk.
      split; [split; [|reflexivity]|]; intros _; exists r.
      * now split.
      * split; [assumption|]. split; [assumption|]. split; [assumption|].
        now apply decodeRow_fields.
Qed.

Lemma three_rows_readable : Forall (@readable text_codec) three_rows.
Proof. repeat (constructor; [eexists; reflexivity|]). constructor. Qed.

Lemma three_rows_meet_schema : Forall meets_schema three_rows.
Proof. repeat (constructor; [reflexivity|]). constructor. Qed.

Lemma loadOffer_found_iff_witness :
  @loadOffer text_codec reverse_order account_A 4 O3 (snd three_offers)
  = (Ok false, O3)
  /\ exists res ret,
       @loadOffer text_codec reverse_order account_A 3 O3 (snd three_offers)
       = (Ok res, ret)
       /\ (res = true <->
           exists r, In r three_rows /\ @has_key text_codec account_A 3 r)
       /\ (res = true ->
           exists r, In r three_rows /\ @has_key text_codec account_A 3 r
                     /\ @decodeRow text_codec r = Ok ret
                     /\ @holds_fields text_codec r ret).
Proof.
  split.
  - apply (proj1 (@loadOffer_found_iff text_codec reverse_order
                    reverse_order_laws three_rows account_A 4 O3)).
    intros r Hr [_ Hseq].
    repeat (destruct Hr as [<-|Hr]; [discriminate Hseq|]). destruct Hr.
  - apply (proj1 (proj2 (@loadOffer_found_iff text_codec reverse_order
                           reverse_order_laws three_rows account_A 3 O3))).
    apply three_rows_readable.
Defined.

(** ** The order-book query *)

Section BestOffers.

Context {codec : Codec}.

Lemma where_row_matches (pays gets : Currency) (r : Offers.Row) :
  meets_schema r ->
  (where_pays pays r && where_gets gets r = true <-> row_matches pays gets r).
Proof.
  intros Hr.
  destruct (meets_schema_inv r Hr)
    as (a & s & pc & pi & gc & gi & am & pn & pd & fl & pr & -> & _).
  unfold row_matches, where_pays, where_gets, leg_matches. simpl.
  rewrite andb_true_iff.
  destruct pays as [|cp], gets as [|cg]; simpl;
    rewrite ?andb_true_iff, ?String.eqb_eq;
    intuition (try discriminate; try congruence).
Qed.

Lemma In_limit (o k : nat) (l : list Offers.Row) (r : Offers.Row) :
  In r (limit o k l) -> In r l.
Proof.
  unfold limit. intros H.
  rewrite <- (firstn_skipn o l). apply in_or_app. right.
  rewrite <- (firstn_skipn k (skipn o l)). apply in_or_app. now left.
Qed.

Lemma bestOffers_rows_stored (numOffers offset : nat) (pays gets : Currency)
  (stored : list Offers.Row) (r : Offers.Row) :
  In r (bestOffers_rows numOffers offset pays gets stored) -> In r stored.
Proof.
  unfold bestOffers_rows. intros H.
  apply In_limit in H.
  apply (Permutation_in _ (order_by_Permutation _)) in H.
  now apply filter_In in H.
Qed.

End BestOffers.



Section IssuedFilter.

Context {codec : Codec}.

Lemma where_issued_matches (pays gets : ISOCurrencyIssuer) (r : Offers.Row) :
  where_best (CurrencyIso pays) (CurrencyIso gets) r = true
  <-> row_matches (CurrencyIso pays) (CurrencyIso gets) r.
Proof.
  unfold where_best, where_pays, where_gets, row_matches, leg_matches.
  rewrite !andb_true_iff, !text_is_true. reflexivity.
Qed.

End IssuedFilter.

(** X21.  The page of the order book of an issued pair.  Over a table of
    readable rows, [loadBestOffers] with two issued filter currencies
    returns and appends to [retOffers] the decoded rows of one page of a
    list [sorted]: the page skips [offset] rows and holds at most
    [numOffers]; [sorted] holds exactly the stored rows whose pays columns
    and gets columns are the code text and the issuer text of the two
    filters; and [sorted] is ascending in the columns price, then sequence,
    then accountID (as text), each breaking the ties of the one before.
    For O1, O2, O3 it returns [O3, O2, O1]; for four offers whose orders by
    price, by sequence and by account all differ it returns them by price,
    then sequence, then account. *)
Theorem loadBestOffers_sorted_page {codec : Codec} (stored : list Offers.Row)
  (numOffers offset : nat) (pays gets : ISOCurrencyIssuer)
  (retOffers : list OfferFrame) :
  Forall readable stored ->
  exists sorted offers,
    loadBestOffers numOffers offset (CurrencyIso pays) (CurrencyIso gets)
      retOffers (Some stored)
    = (Ok tt, retOffers ++ offers)
    /\ Forall2 (fun r f => decodeRow r = Ok f)
         (firstn numOffers (skipn offset sorted)) offers
    /\ (List.length offers <= numOffers)%nat
    /\ StronglySorted ascending sorted
    /\ (forall r1 r2 p1 s1 a1 p2 s2 a2,
          Offers.price r1 = Some p1 -> Offers.sequence r1 = Some s1 ->
          Offers.accountID r1 = Some a1 ->
          Offers.price r2 = Some p2 -> Offers.sequence r2 = Some s2 ->
          Offers.accountID r2 = Some a2 ->
          (ascending r1 r2 <-> triple_ascending p1 s1 a1 p2 s2 a2))
    /\ (forall r,
          In r sorted <->
          In r stored /\ row_matches (CurrencyIso pays) (CurrencyIso gets) r)
    /\ (List.length sorted
        = affected (where_best (CurrencyIso pays) (CurrencyIso gets)) stored)
    /\ @loadBestOffers text_codec 10 0 USD EUR [] (snd three_offers)
       = (Ok tt, [O3; O2; O1])
    /\ @loadBestOffers text_codec 10 0 USD EUR [] (snd four_offers)
       = (Ok tt, [Q2; Q4; Q3; Q1])
    /\ @loadBestOffers text_codec 2 1 USD EUR [] (snd four_offers)
       = (Ok tt, [Q4; Q3]).
Proof.
  intros Hread.
  set (matching := filter (where_best (CurrencyIso pays) (CurrencyIso gets))
                     stored).
  set (sorted := order_by_price_sequence_accountID matching).
  assert (Hsel : Forall readable
                   (bestOffers_rows numOffers offset (CurrencyIso pays)
                      (CurrencyIso gets) stored)).
  { rewrite Forall_forall in *. intros r Hr.
    apply Hread. now apply bestOffers_rows_stored in Hr. }
  destruct (loadOffers_readable _ Hsel) as [offers [H2 Hrun]].
  exists sorted, offers.
  split; [|split; [|split; [|split; [|split; [|split; [|split]]]]]].
  - unfold loadBestOffers. rewrite Hrun. now rewrite push_back_all.
  - exact H2.
  - rewrite <- (Forall2_length H2).
    unfold bestOffers_rows, limit. apply firstn_le_length.
  - apply order_by_StronglySorted.
  - intros r1 r2 p1 s1 a1 p2 s2 a2 Hp1 Hs1 Ha1 Hp2 Hs2 Ha2.
    apply row_leb_triple; unfold sort_key; congruence.
  - intros r. unfold sorted, matching. split.
    + intros Hr.
      apply (Permutation_in _ (order_by_Permutation _)) in Hr.
      apply filter_In in Hr as [Hr Hw]. split; [assumption|].
      now apply where_issued_matches.
    + intros [Hr Hm].
      apply (Permutation_in _ (Permutation_sym (order_by_Permutation _))).
      apply filter_In. split; [assumption|].
      now apply where_issued_matches.
  - unfold sorted, matching, affected.
    apply Permutation_length, order_by_Permutation.
  - repeat split; vm_compute; reflexivity.
Qed.

Lemma loadBestOffers_sorted_page_witness :
  exists sorted offers,
    @loadBestOffers text_codec 1 1 USD EUR [] (snd three_offers)
    = (Ok tt, [] ++ offers)
    /\ Forall2 (fun r f => @decodeRow text_codec r = Ok f)
         (firstn 1 (skipn 1 sorted)) offers
    /\ (List.length offers <= 1)%nat
    /\ StronglySorted ascending sorted
    /\ (forall r,
          In r sorted <->
          In r three_rows /\ @row_matches text_codec USD EUR r).
Proof.
  destruct (@loadBestOffers_sorted_page text_codec three_rows 1 1
              (mkISOCurrencyIssuer [x55; x53; x44; x20] issuer_I)
              (mkISOCurrencyIssuer [x45; x55; x52; x20] issuer_I) []
              three_rows_readable)
    as (sorted & offers & Hrun & Hdec & Hlen & Hsort & _ & Hin & _).
  exists sorted, offers. repeat split; try assumption; now apply Hin.
Defined.

(** ** Updating and deleting *)

Section Writing.

Context {codec : Codec}.

Lemma bind_columns_update (f : OfferFrame) (r : Offers.Row) :
  bind_columns ["amount"; "priceN"; "priceD"; "price"]
    [VInt (amount (mEntry f)); VInt (n (price (mEntry f)));
     VInt (d (price (mEntry f))); VInt (computePrice f)] r
  = Ok (updated_row f r).
Proof. destruct r. reflexivity. Qed.

Lemma updated_row_meets_schema (f : OfferFrame) (r : Offers.Row) :
  meets_schema r -> meets_schema (updated_row f r).
Proof.
  intros Hr.
  destruct (meets_schema_inv r Hr)
    as (a & s & pc & pi & gc & gi & am & pn & pd & fl & pr & -> & Hs).
  unfold meets_schema, row_constraints, updated_row, check_sequence. simpl.
  apply Z.leb_le in Hs. now rewrite Hs.
Qed.

Lemma update_rows_storeChange (f : OfferFrame) (key : Offers.Row -> bool)
  (stored : list Offers.Row) :
  Forall meets_schema stored ->
  update_rows ["amount"; "priceN"; "priceD"; "price"]
    [VInt (amount (mEntry f)); VInt (n (price (mEntry f)));
     VInt (d (price (mEntry f))); VInt (computePrice f)] key stored
  = Ok (map (fun r => if key r then updated_row f r else r) stored).
Proof.
  induction 1 as [|r stored Hr _ IH].
  - reflexivity.
  - cbn [update_rows map]. rewrite IH.
    destruct (key r); [|reflexivity].
    rewrite bind_columns_update. cbn [rbind].
    now rewrite (updated_row_meets_schema f r Hr).
Qed.

Lemma affected_none (key : Offers.Row -> bool) (stored : list Offers.Row) :
  affected key stored = 0%nat <-> forall r, In r stored -> key r = false.
Proof.
  unfold affected. induction stored as [|r stored IH]; simpl.
  - split; [intros _ r []|reflexivity].
  - destruct (key r) eqn:E; simpl.
    + split; [discriminate|]. intros H.
      specialize (H r (or_introl eq_refl)). congruence.
    + rewrite IH. split.
      * intros H x [<-|Hx]; auto.
      * intros H x Hx. apply H. now right.
Qed.

Lemma map_unselected (f : OfferFrame) (key : Offers.Row -> bool)
  (stored : list Offers.Row) :
  affected key stored = 0%nat ->
  map (fun r => if key r then updated_row f r else r) stored = stored.
Proof.
  rewrite affected_none. intros H.
  induction stored as [|r stored IH]; simpl.
  - reflexivity.
  - rewrite (H r) by now left. f_equal. apply IH.
    intros x Hx. apply H. now right.
Qed.

End Writing.

(** C6 (amended).  Over a table of rows that meet the schema,
    [storeChange] succeeds exactly when its UPDATE affected one row, and
    then records the modification; for every other count, 0 as well as 2 or
    more, it fails with one and the same runtime error, "could not update
    SQL", and records nothing.  When no row has the key the count is 0 and
    the table is left as it was. *)
Theorem storeChange_affected_rows {codec : Codec} (f : OfferFrame)
  (delta : LedgerDelta) (stored : list Offers.Row) :
  Forall meets_schema stored ->
  let key := where_key (toBase58Check VER_ACCOUNT_ID (accountID (mEntry f)))
               (sequence (mEntry f)) in
  let updated := map (fun r => if key r then updated_row f r else r) stored in
  (affected key stored = 1%nat ->
   storeChange f delta (Some stored)
   = (Ok tt, delta ++ [Modified f], Some updated))
  /\ (affected key stored <> 1%nat ->
      storeChange f delta (Some stored)
      = (Err (runtime_error "could not update SQL"), delta, Some updated))
  /\ ((forall r, In r stored ->
                 ~ has_key (accountID (mEntry f)) (sequence (mEntry f)) r) ->
      storeChange f delta (Some stored)
      = (Err (runtime_error "could not update SQL"), delta, Some stored))
  /\ (fst (fst (storeChange f delta (Some stored))) = Ok tt
      <-> affected key stored = 1%nat).
Proof.
  intros Hschema key updated.
  assert (Hrun : storeChange f delta (Some stored)
                 = match affected_rows_check (affected key stored) with
                   | Ok _ => (Ok tt, modEntry f delta, Some updated)
                   | Err e => (Err e, delta, Some updated)
                   end).
  { unfold storeChange, sql_update. fold key.
    now rewrite (update_rows_storeChange f key stored Hschema). }
  assert (Hone : affected key stored = 1%nat ->
                 affected_rows_check (affected key stored) = Ok tt).
  { intros ->. reflexivity. }
  assert (Hother : affected key stored <> 1%nat ->
                   affected_rows_check (affected key stored)
                   = Err (runtime_error "could not update SQL")).
  { intros Hne. unfold affected_rows_check.
    destruct (Nat.eqb_spec (affected key stored) 1); [contradiction|easy]. }
  split; [|split; [|split]].
  - intros H1. now rewrite Hrun, (Hone H1).
  - intros Hne. now rewrite Hrun, (Hother Hne).
  - intros Hnone.
    assert (H0 : affected key stored = 0%nat).
    { apply affected_none. intros r Hr. specialize (Hnone r Hr).
      unfold key. rewrite <- where_key_has_key in Hnone.
      now destruct (where_key _ _ r). }
    rewrite Hrun, Hother by (rewrite H0; discriminate).
    unfold updated. now rewrite (map_unselected f key stored H0).
  - rewrite Hrun. split.
    + intros Hok.
      destruct (Nat.eq_dec (affected key stored) 1) as [E|Hne]; [exact E|].
      rewrite (Hother Hne) in Hok. discriminate.
    + intros H1. now rewrite (Hone H1).
Qed.

Lemma storeChange_affected_rows_witness :
  @storeChange text_codec (offer account_A 3 USD EUR 50 1 4) [] (Some three_rows)
  = (Ok tt, [Modified (offer account_A 3 USD EUR 50 1 4)],
     Some (map (fun r =>
                  if where_key (string_of_list_byte account_A) 3 r
                  then @updated_row (offer account_A 3 USD EUR 50 1 4) r
                  else r) three_rows))
  /\ @storeChange text_codec (offer account_A 4 USD EUR 50 1 4) []
       (Some three_rows)
     = (Err (runtime_error "could not update SQL"), [], Some three_rows).
Proof.
  split.
  - apply (proj1 (@storeChange_affected_rows text_codec
                    (offer account_A 3 USD EUR 50 1 4) [] three_rows
                    three_rows_meet_schema)).
    reflexivity.
  - apply (proj1 (proj2 (proj2 (@storeChange_affected_rows text_codec
                    (offer account_A 4 USD EUR 50 1 4) [] three_rows
                    three_rows_meet_schema)))).
    intros r Hr [_ Hseq].
    repeat (destruct Hr as [<-|Hr]; [discriminate Hseq|]). destruct Hr.
Defined.

(** C6 as stated fails: the error of [storeChange] for a key that is not
    stored is the error it raises for an affected-row count of 2, so no
    reading of the errors tells NotFound from PersistenceFailure. *)
Lemma storeChange_one_error :
  fst (fst (@storeChange text_codec O1 [] (Some [])))
  = Err (runtime_error "could not update SQL")
  /\ affected_rows_check 0 = Err (runtime_error "could not update SQL")
  /\ affected_rows_check 2 = Err (runtime_error "could not update SQL")
  /\ ~ (exists classify : exn -> StorageError,
          (forall e, affected_rows_check 0 = Err e -> classify e = NotFound)
          /\ (forall e, affected_rows_check 2 = Err e ->
                        classify e = PersistenceFailure)).
Proof.
  repeat split.
  intros [classify [H0 H2]].
  specialize (H0 _ eq_refl). specialize (H2 _ eq_refl).
  rewrite H0 in H2. discriminate.
Qed.

(** C7 (amended).  [storeDelete] removes every row with the key
    (accountID, sequence) and keeps the others; it succeeds whether or not
    such a row was stored, and a second call leaves the table as the first
    left it; each call records exactly one deletion in the delta, before it
    returns, whether or not a row was removed. *)
Theorem storeDelete_always_notifies {codec : Codec} (f : OfferFrame)
  (delta : LedgerDelta) (stored : list Offers.Row) :
  let key := where_key (toBase58Check VER_ACCOUNT_ID (accountID (mEntry f)))
               (sequence (mEntry f)) in
  let kept := filter (fun r => negb (key r)) stored in
  storeDelete f delta (Some stored) = (Ok tt, delta ++ [Deleted f], Some kept)
  /\ (forall r, In r kept <->
                In r stored
                /\ ~ has_key (accountID (mEntry f)) (sequence (mEntry f)) r)
  /\ storeDelete f (delta ++ [Deleted f]) (Some kept)
     = (Ok tt, (delta ++ [Deleted f]) ++ [Deleted f], Some kept).
Proof.
  intros key kept.
  assert (Hkept : forall r, In r kept <->
            In r stored
            /\ ~ has_key (accountID (mEntry f)) (sequence (mEntry f)) r).
  { intros r. unfold kept. rewrite filter_In.
    rewrite <- where_key_has_key. fold key.
    destruct (key r); simpl; intuition congruence. }
  split; [reflexivity|split; [exact Hkept|]].
  unfold storeDelete, sql_delete, deleteEntry. fold key.
  do 2 f_equal.
  assert (Hall : forall r, In r kept -> negb (key r) = true).
  { intros r Hr. unfold kept in Hr. now apply filter_In in Hr. }
  clear Hkept. induction kept as [|r l IH]; simpl.
  - reflexivity.
  - rewrite (Hall r) by now left. f_equal. apply IH.
    intros x Hx. apply Hall. now right.
Qed.

(** C7 as stated fails: on the empty table, where no row has the key,
    [storeDelete] still records a deletion. *)
Lemma storeDelete_notifies_without_row :
  @storeDelete text_codec O1 [] (Some []) = (Ok tt, [Deleted O1], Some [])
  /\ ~ (exists r, In r [] /\ @has_key text_codec account_A 5 r).
Proof.
  split; [reflexivity|]. intros [r [[] _]].
Qed.

(** ** Inserting *)

(** C9.  When the two legs are not both Native, [storeAdd] takes the one
    branch its if / else-if / else chain selects (gets Native; else pays
    Native; else both Issued), every leg whose issued arm that branch reads
    has type ISO4217, and the statement is built without a wrong access to
    a union arm.  When both legs are Native it takes the first branch, which
    reads the issued arm of the Native pays leg: the access throws and
    [storeAdd] ends on that exception with nothing changed. *)
Theorem storeAdd_reads_issued_legs {codec : Codec} (f : OfferFrame) :
  let pays := takerPays (mEntry f) in
  let gets := takerGets (mEntry f) in
  (~ (type pays = NATIVE /\ type gets = NATIVE) ->
   (storeAdd_branch f = GetsNative <-> type gets = NATIVE)
   /\ (storeAdd_branch f = PaysNative <-> type pays = NATIVE)
   /\ (storeAdd_branch f = BothIssued <->
       type pays = ISO4217 /\ type gets = ISO4217)
   /\ Forall (fun l => type (leg_currency f l) = ISO4217)
        (isoCI_reads (storeAdd_branch f))
   /\ exists stmt, storeAdd_statement f = Ok stmt)
  /\ (type pays = NATIVE /\ type gets = NATIVE ->
      storeAdd_branch f = GetsNative
      /\ In Pays (isoCI_reads (storeAdd_branch f))
      /\ type (leg_currency f Pays) = NATIVE
      /\ storeAdd_statement f = Err xdr_wrong_union
      /\ forall delta db,
           storeAdd f delta db = (Err xdr_wrong_union, delta, db))
  /\ (Forall (fun l => type (leg_currency f l) = ISO4217)
        (isoCI_reads (storeAdd_branch f))
      <-> exists stmt, storeAdd_statement f = Ok stmt).
Proof.
  destruct f as [[acc seq pays gets amt pr fl] idx].
  unfold storeAdd, storeAdd_statement, storeAdd_branch. simpl.
  destruct pays as [|cp], gets as [|cg]; simpl.
  - split; [intros H; exfalso; now apply H|].
    split; [intros _; repeat split; now left|].
    split.
    + intros H. inversion H. discriminate.
    + intros [stmt H]. discriminate.
  - split; [|split; [intros [_ H]; discriminate|]].
    + intros _. repeat split; try discriminate; try (intros [H _]; discriminate).
      * repeat constructor.
      * eexists. reflexivity.
    + split; [intros _; eexists; reflexivity|intros _; repeat constructor].
  - split; [|split; [intros [H _]; discriminate|]].
    + intros _. repeat split; try discriminate; try (intros [_ H]; discriminate).
      * repeat constructor.
      * eexists. reflexivity.
    + split; [intros _; eexists; reflexivity|intros _; repeat constructor].
  - split; [|split; [intros [H _]; discriminate|]].
    + intros _. repeat split; try discriminate.
      * repeat constructor.
      * eexists. reflexivity.
    + split; [intros _; eexists; reflexivity|intros _; repeat constructor].
Qed.

Lemma storeAdd_reads_issued_legs_witness :
  Forall (fun l => type (leg_currency offer_native_for_USD l) = ISO4217)
    (isoCI_reads (storeAdd_branch offer_native_for_USD))
  /\ @storeAdd_statement text_codec offer_native_for_native
     = Err xdr_wrong_union.
Proof.
  split.
  - apply (proj1 (@storeAdd_reads_issued_legs text_codec offer_native_for_USD)).
    simpl. intros [_ H]. discriminate.
  - apply (proj1 (proj2 (@storeAdd_reads_issued_legs text_codec
                           offer_native_for_native))).
    simpl. split; reflexivity.
Defined.

Section Inserting.

Context {codec : Codec}.

Lemma key_constraint_fresh (r : Offers.Row) (accountID : uint256) (seq : Z)
  (stored : list Offers.Row) :
  Offers.accountID r = Some (toBase58Check VER_ACCOUNT_ID accountID) ->
  Offers.sequence r = Some seq ->
  (forall x, In x stored -> ~ has_key accountID seq x) ->
  key_constraint r stored = Ok tt.
Proof.
  intros Ha Hs Hfresh. unfold key_constraint.
  assert (E : existsb (same_primary_key r) stored = false).
  { induction stored as [|x l IH]; simpl; [reflexivity|].
    rewrite IH by (intros y Hy; apply Hfresh; now right).
    rewrite orb_false_r.
    specialize (Hfresh x (or_introl eq_refl)).
    unfold same_primary_key, has_key in *. rewrite Ha, Hs.
    destruct (Offers.accountID x) as [a|], (Offers.sequence x) as [s|];
      simpl; try reflexivity; try apply andb_false_r.
    destruct (String.eqb_spec (toBase58Check VER_ACCOUNT_ID accountID) a);
      simpl; [|reflexivity].
    destruct (Z.eqb_spec seq s); [|reflexivity].
    exfalso. apply Hfresh. split; congruence. }
  now rewrite E.
Qed.

(** An offer with two issued legs and a fresh key is stored, as the row
    [inserted_row], and the addition recorded. *)
Lemma storeAdd_both_issued (f : OfferFrame) (pays gets : ISOCurrencyIssuer)
  (delta : LedgerDelta) (stored : list Offers.Row) :
  takerPays (mEntry f) = CurrencyIso pays ->
  takerGets (mEntry f) = CurrencyIso gets ->
  0 <= sequence (mEntry f) ->
  (forall x, In x stored ->
             ~ has_key (accountID (mEntry f)) (sequence (mEntry f)) x) ->
  storeAdd f delta (Some stored)
  = (Ok tt, delta ++ [Added f], Some (stored ++ [inserted_row f pays gets])).
Proof.
  intros Hp Hg Hseq Hfresh.
  unfold storeAdd, storeAdd_statement, storeAdd_branch.
  rewrite Hp, Hg. simpl.
  unfold row_constraints, check_sequence. simpl.
  apply Z.leb_le in Hseq. rewrite Hseq. simpl.
  rewrite (key_constraint_fresh _ (accountID (mEntry f))
             (sequence (mEntry f))) by easy.
  reflexivity.
Qed.

Lemma inserted_row_meets_schema (f : OfferFrame)
  (pays gets : ISOCurrencyIssuer) :
  0 <= sequence (mEntry f) -> meets_schema (inserted_row f pays gets).
Proof.
  intros Hseq. unfold meets_schema, row_constraints, check_sequence. simpl.
  apply Z.leb_le in Hseq. now rewrite Hseq.
Qed.

(** With conversions that undo each other, the row [storeAdd] wrote for
    an offer with two issued legs decodes to the entry that was added. *)
Lemma decodeRow_inserted_row `{!CodecLaws codec} (f : OfferFrame)
  (pays gets : ISOCurrencyIssuer) :
  takerPays (mEntry f) = CurrencyIso pays ->
  takerGets (mEntry f) = CurrencyIso gets ->
  decodeRow (inserted_row f pays gets) = Ok (mkOfferFrame (mEntry f) zero256).
Proof.
  intros Hp Hg. unfold decodeRow, readCurrency, account_of_text. simpl.
  rewrite !fromBase58Check256_toBase58Check. simpl.
  rewrite !strToCurrencyCode_currencyCodeToStr.
  destruct f as [[acc seq p g amt [pn pd] fl] idx]. simpl in *.
  subst. destruct pays, gets. reflexivity.
Qed.

(** Round trip for two issued legs: after [storeAdd], [loadOffer] on the
    key finds the entry that was added. *)
Lemma loadOffer_after_storeAdd `{!CodecLaws codec} {backend : Backend}
  `{!BackendLaws backend} (f retOffer : OfferFrame)
  (pays gets : ISOCurrencyIssuer) (stored : list Offers.Row) :
  takerPays (mEntry f) = CurrencyIso pays ->
  takerGets (mEntry f) = CurrencyIso gets ->
  (forall x, In x stored ->
             ~ has_key (accountID (mEntry f)) (sequence (mEntry f)) x) ->
  loadOffer (accountID (mEntry f)) (sequence (mEntry f)) retOffer
    (Some (stored ++ [inserted_row f pays gets]))
  = (Ok true, mkOfferFrame (mEntry f) zero256).
Proof.
  intros Hp Hg Hfresh. unfold loadOffer, sql_select.
  rewrite filter_app, filter_none.
  - simpl. unfold where_key at 1. simpl.
    rewrite String.eqb_refl, Z.eqb_refl. simpl.
    rewrite select_order_one. simpl.
    now rewrite (decodeRow_inserted_row f pays gets Hp Hg).
  - intros x Hx. specialize (Hfresh x Hx).
    rewrite <- where_key_has_key in Hfresh.
    now destruct (where_key _ _ x).
Qed.

(** Whatever [storeAdd] stores is an offer with two issued legs. *)
Lemma storeAdd_Ok_inv (f : OfferFrame) (delta delta' : LedgerDelta)
  (stored : list Offers.Row) (db' : Database) :
  storeAdd f delta (Some stored) = (Ok tt, delta', db') ->
  exists pays gets,
    takerPays (mEntry f) = CurrencyIso pays
    /\ takerGets (mEntry f) = CurrencyIso gets
    /\ delta' = delta ++ [Added f]
    /\ db' = Some (stored ++ [inserted_row f pays gets]).
Proof.
  destruct f as [[acc seq pays gets amt [pn pd] fl] idx].
  unfold storeAdd, storeAdd_statement, storeAdd_branch, sql_insert. simpl.
  destruct pays as [|cp], gets as [|cg]; simpl; try discriminate.
  unfold row_constraints, check_sequence. simpl.
  destruct (0 <=? seq); simpl; [|discriminate].
  destruct (key_constraint _ stored); simpl; [|discriminate].
  intros H. injection H as <- <-. exists cp, cg. repeat split.
Qed.

Lemma updated_row_readable (f : OfferFrame) (r : Offers.Row) :
  readable r -> readable (updated_row f r).
Proof.
  intros [g Hg]. unfold readable, decodeRow in *.
  destruct r as [a s pc pi gc gi am pn pd fl pr]. simpl in *.
  destruct a as [a|]; [|discriminate].
  destruct s as [s|]; [|discriminate].
  destruct pi as [pi|]; [|discriminate].
  destruct gi as [gi|]; [|discriminate].
  destruct am as [am|]; [|discriminate].
  destruct pn as [pn|]; [|discriminate].
  destruct pd as [pd|]; [|discriminate].
  destruct fl as [fl|]; [|discriminate].
  simpl in *.
  destruct (account_of_text a) as [acc|]; [|discriminate]. simpl in *.
  destruct (readCurrency pc pi) as [p|]; [|discriminate]. simpl in *.
  destruct (readCurrency gc gi) as [q|]; [|discriminate]. simpl in *.
  eexists. reflexivity.
Qed.

(** With conversions that undo each other, every write keeps the rows of
    the table readable. *)
Lemma readable_kept `{!CodecLaws codec} (f : OfferFrame)
  (delta delta' : LedgerDelta) (stored stored' : list Offers.Row) :
  Forall meets_schema stored ->
  Forall readable stored ->
  storeAdd f delta (Some stored) = (Ok tt, delta', Some stored')
  \/ storeChange f delta (Some stored) = (Ok tt, delta', Some stored')
  \/ storeDelete f delta (Some stored) = (Ok tt, delta', Some stored') ->
  Forall readable stored'.
Proof.
  intros Hs Hr [H|[H|H]].
  - apply storeAdd_Ok_inv in H as (pays & gets & Hp & Hg & _ & E).
    injection E as ->. apply Forall_app. split; [assumption|].
    constructor; [|constructor].
    eexists. now apply decodeRow_inserted_row.
  - unfold storeChange, sql_update in H.
    rewrite (update_rows_storeChange f _ stored Hs) in H.
    destruct (affected_rows_check _); [|discriminate].
    injection H as _ <-.
    rewrite Forall_forall in *. intros r Hin.
    apply in_map_iff in Hin as [x [<- Hx]].
    destruct (where_key _ _ x); [|now apply Hr].
    apply updated_row_readable. now apply Hr.
  - unfold storeDelete, sql_delete in H. injection H as _ <-.
    rewrite Forall_forall in *. intros r Hin.
    apply filter_In in Hin as [Hin _]. now apply Hr.
Qed.

End Inserting.

(** C3 (the code at the failing inputs).  [storeAdd] stores no offer that
    has a Native leg.  With gets Native its INSERT names a column priceP,
    which the table does not have; with pays Native its INSERT leaves the
    pays columns NULL, which the table declares NOT NULL, and it binds the
    issuer to getsIsoCurrency and the code to getsIssuer.  Either way the
    statement throws, the table is unchanged and a later [loadOffer] on the
    key finds nothing. *)
Theorem storeAdd_native_leg_fails {codec : Codec} (f : OfferFrame)
  (delta : LedgerDelta) (stored : list Offers.Row) :
  (forall pays,
     takerPays (mEntry f) = CurrencyIso pays ->
     takerGets (mEntry f) = CurrencyNative ->
     storeAdd f delta (Some stored)
     = (Err (soci_error (NoSuchColumn "priceP")), delta, Some stored))
  /\ (forall gets,
        takerPays (mEntry f) = CurrencyNative ->
        takerGets (mEntry f) = CurrencyIso gets ->
        storeAdd f delta (Some stored)
        = (Err (soci_error (NotNullConstraint "paysIsoCurrency")),
           delta, Some stored)
        /\ exists cols vals row,
             storeAdd_statement f = Ok (cols, vals)
             /\ bind_columns cols vals Offers.all_null = Ok row
             /\ Offers.getsIsoCurrency row
                = Some (toBase58Check VER_ACCOUNT_ID (issuer gets))
             /\ Offers.getsIssuer row
                = Some (currencyCodeToStr (currencyCode gets)))
  /\ @storeAdd text_codec offer_native_for_USD [] (@dropAll None)
     = (Err (soci_error (NotNullConstraint "paysIsoCurrency")), [], Some [])
  /\ @storeAdd text_codec offer_USD_for_native [] (@dropAll None)
     = (Err (soci_error (NoSuchColumn "priceP")), [], Some [])
  /\ (forall backend : Backend,
        BackendLaws backend ->
        @loadOffer text_codec backend account_A 1 OfferFrame_default (Some [])
        = (Ok false, OfferFrame_default)).
Proof.
  split; [|split; [|repeat split]].
  - intros pays Hp Hg.
    unfold storeAdd, storeAdd_statement, storeAdd_branch.
    rewrite Hp, Hg. reflexivity.
  - intros gets Hp Hg.
    unfold storeAdd, storeAdd_statement, storeAdd_branch.
    rewrite Hp, Hg. split; [reflexivity|].
    do 3 eexists. repeat split.
  - intros backend Hlaws. unfold loadOffer, sql_select. simpl.
    now rewrite select_order_nil.
Qed.

Lemma storeAdd_native_leg_fails_witness :
  @storeAdd text_codec offer_native_for_USD [] (Some three_rows)
  = (Err (soci_error (NotNullConstraint "paysIsoCurrency")), [],
     Some three_rows).
Proof.
  apply (proj1 (proj2 (@storeAdd_native_leg_fails text_codec
                         offer_native_for_USD [] three_rows))
           (mkISOCurrencyIssuer [x55; x53; x44; x20] issuer_I));
    reflexivity.
Defined.

(** C4 (the code at the failing input).  No row the table of
    [kSQLCreateStatement] can hold has a NULL in a currency column.  For an
    offer that pays Native and gets an issued currency, the row [storeAdd]
    builds has the null pair on the pays leg and a non-null pair on the
    gets leg, and the table refuses it: nothing is written. *)
Theorem schema_rejects_null_pair {codec : Codec} :
  (forall r,
     meets_schema r ->
     Offers.paysIsoCurrency r <> None /\ Offers.paysIssuer r <> None
     /\ Offers.getsIsoCurrency r <> None /\ Offers.getsIssuer r <> None)
  /\ (forall f gets,
        takerPays (mEntry f) = CurrencyNative ->
        takerGets (mEntry f) = CurrencyIso gets ->
        exists cols vals row,
          storeAdd_statement f = Ok (cols, vals)
          /\ bind_columns cols vals Offers.all_null = Ok row
          /\ Offers.paysIsoCurrency row = None
          /\ Offers.paysIssuer row = None
          /\ Offers.getsIsoCurrency row <> None
          /\ Offers.getsIssuer row <> None
          /\ row_constraints row
             = Err (soci_error (NotNullConstraint "paysIsoCurrency"))
          /\ forall delta stored,
               storeAdd f delta (Some stored)
               = (Err (soci_error (NotNullConstraint "paysIsoCurrency")),
                  delta, Some stored)).
Proof.
  split.
  - intros r Hr.
    destruct (meets_schema_inv r Hr)
      as (a & s & pc & pi & gc & gi & am & pn & pd & fl & pr & -> & _).
    simpl. repeat split; discriminate.
  - intros f gets Hp Hg.
    unfold storeAdd, storeAdd_statement, storeAdd_branch.
    rewrite Hp, Hg. simpl.
    do 3 eexists. repeat split; discriminate.
Qed.

Lemma schema_rejects_null_pair_witness :
  exists cols vals row,
    @storeAdd_statement text_codec offer_native_for_USD = Ok (cols, vals)
    /\ bind_columns cols vals Offers.all_null = Ok row
    /\ Offers.paysIsoCurrency row = None
    /\ Offers.paysIssuer row = None
    /\ row_constraints row
       = Err (soci_error (NotNullConstraint "paysIsoCurrency")).
Proof.
  destruct (proj2 (@schema_rejects_null_pair text_codec)
              offer_native_for_USD
              (mkISOCurrencyIssuer [x55; x53; x44; x20] issuer_I)
              eq_refl eq_refl)
    as (cols & vals & row & H1 & H2 & H3 & H4 & _ & _ & H5 & _).
  exists cols, vals, row. repeat split; assumption.
Defined.

(** ** The schema is kept by every write *)

Lemma schema_kept {codec : Codec} (f : OfferFrame) (delta delta' : LedgerDelta)
  (stored stored' : list Offers.Row) (res : Result unit) :
  Forall meets_schema stored ->
  storeAdd f delta (Some stored) = (res, delta', Some stored')
  \/ storeChange f delta (Some stored) = (res, delta', Some stored')
  \/ storeDelete f delta (Some stored) = (res, delta', Some stored') ->
  Forall meets_schema stored'.
Proof.
  intros Hs [H|[H|H]].
  - unfold storeAdd in H.
    destruct (storeAdd_statement f) as [[cols vals]|e].
    + unfold sql_insert in H.
      destruct (bind_columns cols vals Offers.all_null) as [r|e]; simpl in H.
      * destruct (row_constraints r) eqn:Hr; simpl in H.
        -- destruct (key_constraint r stored); simpl in H.
           ++ injection H as _ _ <-. apply Forall_app. split; [assumption|].
              constructor; [|constructor]. destruct a. exact Hr.
           ++ now injection H as _ _ <-.
        -- now injection H as _ _ <-.
      * now injection H as _ _ <-.
    + now injection H as _ _ <-.
  - unfold storeChange, sql_update in H.
    rewrite (update_rows_storeChange f _ stored Hs) in H.
    assert (Hmap : Forall meets_schema
              (map (fun r =>
                 if where_key
                      (toBase58Check VER_ACCOUNT_ID (accountID (mEntry f)))
                      (sequence (mEntry f)) r
                 then updated_row f r else r) stored)).
    { rewrite Forall_forall in *. intros r Hr.
      apply in_map_iff in Hr as [x [<- Hx]].
      destruct (where_key _ _ x); [|now apply Hs].
      apply updated_row_meets_schema. now apply Hs. }
    destruct (affected_rows_check _); now injection H as _ _ <-.
  - unfold storeDelete, sql_delete in H. injection H as _ _ <-.
    rewrite Forall_forall in *. intros r Hr.
    apply filter_In in Hr as [Hr _]. now apply Hs.
Qed.

(** ** The index *)

(** C8 (the code at the failing input).  [calculateIndex] hashes the
    account identifier followed by the four bytes of [sequence] as the host
    holds them.  The width is fixed; the byte order is the host's: for
    sequence 1 a little-endian host hashes 01 00 00 00 and a big-endian
    host 00 00 00 01, two different inputs to the hash. *)
Theorem calculateIndex_host_bytes (SHA256 : list byte -> uint256) :
  mIndex (calculateIndex SHA256 LittleEndian O3)
  = SHA256 (account_B ++ [x01; x00; x00; x00])
  /\ mIndex (calculateIndex SHA256 BigEndian O3)
     = SHA256 (account_B ++ [x00; x00; x00; x01])
  /\ calculateIndex_input LittleEndian O3 <> calculateIndex_input BigEndian O3
  /\ forall host f,
       List.length (ByteSlice_uint32 host (sequence (mEntry f))) = 4%nat.
Proof.
  repeat split.
  - vm_compute. discriminate.
  - intros [|] f; reflexivity.
Qed.


(* ================================================================= *)
(** * Further properties of the code *)

Lemma text_codec_laws : CodecLaws text_codec.
Proof.
  split; simpl.
  - intros _ a. now rewrite list_byte_of_string_of_list_byte.
  - apply list_byte_of_string_of_list_byte.
Qed.

(** ** Adding *)

Section MoreInserting.

Context {codec : Codec}.

Lemma keyed_rows_same_primary_key (r x : Offers.Row) (t : string) (s : Z) :
  Offers.accountID r = Some t -> Offers.sequence r = Some s ->
  Offers.accountID x = Some t -> Offers.sequence x = Some s ->
  same_primary_key r x = true.
Proof.
  intros Ha Hs Hxa Hxs. unfold same_primary_key.
  rewrite Ha, Hs, Hxa, Hxs. simpl.
  now rewrite String.eqb_refl, Z.eqb_refl.
Qed.

Lemma key_constraint_Ok_fresh (r : Offers.Row) (accountID : uint256) (seq : Z)
  (stored : list Offers.Row) :
  Offers.accountID r = Some (toBase58Check VER_ACCOUNT_ID accountID) ->
  Offers.sequence r = Some seq ->
  key_constraint r stored = Ok tt ->
  forall x, In x stored -> ~ has_key accountID seq x.
Proof.
  intros Ha Hs Hk x Hx [Hxa Hxs]. unfold key_constraint in Hk.
  assert (E : existsb (same_primary_key r) stored = true).
  { apply existsb_exists. exists x. split; [assumption|].
    now apply keyed_rows_same_primary_key
      with (t := toBase58Check VER_ACCOUNT_ID accountID) (s := seq). }
  rewrite E in Hk. discriminate.
Qed.

Lemma key_constraint_taken (r : Offers.Row) (accountID : uint256) (seq : Z)
  (stored : list Offers.Row) :
  Offers.accountID r = Some (toBase58Check VER_ACCOUNT_ID accountID) ->
  Offers.sequence r = Some seq ->
  (exists x, In x stored /\ has_key accountID seq x) ->
  key_constraint r stored = Err (soci_error PrimaryKeyConstraint).
Proof.
  intros Ha Hs [x [Hx [Hxa Hxs]]]. unfold key_constraint.
  assert (E : existsb (same_primary_key r) stored = true).
  { apply existsb_exists. exists x. split; [assumption|].
    now apply keyed_rows_same_primary_key
      with (t := toBase58Check VER_ACCOUNT_ID accountID) (s := seq). }
  now rewrite E.
Qed.

(** What a successful [storeAdd] tells: both legs issued, a sequence the
    CHECK accepts, a key that was free, and the row appended. *)
Lemma storeAdd_Ok_fresh (f : OfferFrame) (delta delta' : LedgerDelta)
  (stored : list Offers.Row) (db' : Database) :
  storeAdd f delta (Some stored) = (Ok tt, delta', db') ->
  exists pays gets,
    takerPays (mEntry f) = CurrencyIso pays
    /\ takerGets (mEntry f) = CurrencyIso gets
    /\ 0 <= sequence (mEntry f)
    /\ (forall x, In x stored ->
                  ~ has_key (accountID (mEntry f)) (sequence (mEntry f)) x)
    /\ delta' = delta ++ [Added f]
    /\ db' = Some (stored ++ [inserted_row f pays gets]).
Proof.
  destruct f as [[acc seq pays gets amt [pn pd] fl] idx].
  unfold storeAdd, storeAdd_statement, storeAdd_branch, sql_insert. simpl.
  destruct pays as [|cp], gets as [|cg]; simpl; try discriminate.
  unfold row_constraints, check_sequence. simpl.
  destruct (0 <=? seq) eqn:Hseq; simpl; [|discriminate].
  destruct (key_constraint _ stored) as [[]|e] eqn:Hk; simpl; [|discriminate].
  intros H. injection H as <- <-. exists cp, cg.
  repeat split; try (now apply Z.leb_le).
  eapply key_constraint_Ok_fresh; [| |exact Hk]; reflexivity.
Qed.

End MoreInserting.

(** X1.  Round trip.  With conversions that undo each other, an offer with
    two issued legs, a sequence that is not negative and a key that is not
    stored is added, the addition is recorded once, and [loadOffer] on its
    key then returns true with an entry equal to the one added in every
    field. *)
Theorem storeAdd_then_loadOffer {codec : Codec} `{!CodecLaws codec}
  {backend : Backend} `{!BackendLaws backend} (f retOffer : OfferFrame) (pays gets : ISOCurrencyIssuer)
  (delta : LedgerDelta) (stored : list Offers.Row) :
  takerPays (mEntry f) = CurrencyIso pays ->
  takerGets (mEntry f) = CurrencyIso gets ->
  0 <= sequence (mEntry f) ->
  (forall x, In x stored ->
             ~ has_key (accountID (mEntry f)) (sequence (mEntry f)) x) ->
  exists db',
    storeAdd f delta (Some stored) = (Ok tt, delta ++ [Added f], db')
    /\ loadOffer (accountID (mEntry f)) (sequence (mEntry f)) retOffer db'
       = (Ok true, loaded f)
    /\ mEntry (loaded f) = mEntry f.
Proof.
  intros Hp Hg Hseq Hfresh.
  exists (Some (stored ++ [inserted_row f pays gets])).
  split; [|split; [|reflexivity]].
  - now apply storeAdd_both_issued.
  - now apply loadOffer_after_storeAdd.
Qed.

Lemma storeAdd_then_loadOffer_witness :
  exists db',
    @storeAdd text_codec O1 [] (Some []) = (Ok tt, [] ++ [Added O1], db')
    /\ @loadOffer text_codec reverse_order account_A 5 OfferFrame_default db'
       = (Ok true, loaded O1)
    /\ mEntry (loaded O1) = mEntry O1.
Proof.
  apply (@storeAdd_then_loadOffer text_codec text_codec_laws
           reverse_order reverse_order_laws O1
           OfferFrame_default
           (mkISOCurrencyIssuer [x55; x53; x44; x20] issuer_I)
           (mkISOCurrencyIssuer [x45; x55; x52; x20] issuer_I) [] []).
  - reflexivity.
  - reflexivity.
  - simpl. lia.
  - intros x [].
Defined.

(** X2.  A second [storeAdd] on a stored key is refused by the primary key:
    it throws, the table is unchanged and nothing is recorded in the
    delta. *)
Theorem storeAdd_duplicate_key {codec : Codec} (f : OfferFrame)
  (pays gets : ISOCurrencyIssuer) (delta : LedgerDelta)
  (stored : list Offers.Row) :
  takerPays (mEntry f) = CurrencyIso pays ->
  takerGets (mEntry f) = CurrencyIso gets ->
  0 <= sequence (mEntry f) ->
  (exists x, In x stored
             /\ has_key (accountID (mEntry f)) (sequence (mEntry f)) x) ->
  storeAdd f delta (Some stored)
  = (Err (soci_error PrimaryKeyConstraint), delta, Some stored).
Proof.
  intros Hp Hg Hseq Htaken.
  unfold storeAdd, storeAdd_statement, storeAdd_branch.
  rewrite Hp, Hg. simpl.
  unfold row_constraints, check_sequence. simpl.
  apply Z.leb_le in Hseq. rewrite Hseq. simpl.
  rewrite (key_constraint_taken _ (accountID (mEntry f))
             (sequence (mEntry f))) by easy.
  reflexivity.
Qed.

Lemma storeAdd_duplicate_key_witness :
  @storeAdd text_codec (offer account_A 3 USD EUR 7 9 1) [] (Some three_rows)
  = (Err (soci_error PrimaryKeyConstraint), [], Some three_rows).
Proof.
  apply (@storeAdd_duplicate_key text_codec (offer account_A 3 USD EUR 7 9 1)
           (mkISOCurrencyIssuer [x55; x53; x44; x20] issuer_I)
           (mkISOCurrencyIssuer [x45; x55; x52; x20] issuer_I)
           [] three_rows).
  - reflexivity.
  - reflexivity.
  - simpl. lia.
  - exists (@inserted_row text_codec O2
              (mkISOCurrencyIssuer [x55; x53; x44; x20] issuer_I)
              (mkISOCurrencyIssuer [x45; x55; x52; x20] issuer_I)).
    split; [right; left; reflexivity|split; reflexivity].
Defined.

(** X3.  [storeAdd] succeeds exactly when both legs are issued, the
    sequence is not negative and no stored row has the key. *)
Theorem storeAdd_succeeds_iff {codec : Codec} (f : OfferFrame)
  (delta : LedgerDelta) (stored : list Offers.Row) :
  fst (fst (storeAdd f delta (Some stored))) = Ok tt
  <-> type (takerPays (mEntry f)) = ISO4217
      /\ type (takerGets (mEntry f)) = ISO4217
      /\ 0 <= sequence (mEntry f)
      /\ forall x, In x stored ->
                   ~ has_key (accountID (mEntry f)) (sequence (mEntry f)) x.
Proof.
  split.
  - intros H.
    destruct (storeAdd f delta (Some stored)) as [[res delta'] db'] eqn:E.
    simpl in H. subst res.
    apply storeAdd_Ok_fresh in E
      as (pays & gets & Hp & Hg & Hseq & Hfresh & _ & _).
    rewrite Hp, Hg. repeat split; assumption.
  - intros (Hp & Hg & Hseq & Hfresh).
    destruct (takerPays (mEntry f)) as [|pays] eqn:Ep; [discriminate|].
    destruct (takerGets (mEntry f)) as [|gets] eqn:Eg; [discriminate|].
    now rewrite (storeAdd_both_issued f pays gets delta stored Ep Eg Hseq).
Qed.

(** X4.  [storeAdd] is all or nothing, on every database: either it
    appends one row to the table and records the addition once, or it
    throws and leaves both the table and the delta as they were. *)
Theorem storeAdd_all_or_nothing {codec : Codec} (f : OfferFrame)
  (delta : LedgerDelta) (db : Database) :
  (exists stored row,
     db = Some stored
     /\ storeAdd f delta db
        = (Ok tt, delta ++ [Added f], Some (stored ++ [row])))
  \/ (exists e, storeAdd f delta db = (Err e, delta, db)).
Proof.
  unfold storeAdd.
  destruct (storeAdd_statement f) as [[cols vals]|e];
    [|right; now exists e].
  unfold sql_insert. destruct db as [stored|];
    [|right; eexists; reflexivity].
  destruct (bind_columns cols vals Offers.all_null) as [r|e]; simpl;
    [|right; now exists e].
  destruct (row_constraints r) as [[]|e]; simpl; [|right; now exists e].
  destruct (key_constraint r stored) as [[]|e]; simpl; [|right; now exists e].
  left. exists stored, r. split; reflexivity.
Qed.

(** ** The shape of the table after a write *)

Lemma filter_all {A} (p : A -> bool) (l : list A) :
  (forall x, In x l -> p x = true) -> filter p l = l.
Proof.
  induction l as [|x l IH]; intros H; simpl.
  - reflexivity.
  - rewrite (H x) by now left. f_equal. apply IH.
    intros y Hy. apply H. now right.
Qed.

Section Shapes.

Context {codec : Codec}.

Lemma where_key_true (t : string) (s : Z) (r : Offers.Row) :
  where_key t s r = true
  <-> Offers.accountID r = Some t /\ Offers.sequence r = Some s.
Proof.
  unfold where_key. now rewrite andb_true_iff, text_is_true, int_is_true.
Qed.

Lemma where_key_other (t t' : string) (s s' : Z) (r : Offers.Row) :
  t' <> t \/ s' <> s -> where_key t' s' r = true -> where_key t s r = false.
Proof.
  intros Hne H'. apply where_key_true in H' as [Ha Hs].
  destruct (where_key t s r) eqn:E; [|reflexivity].
  apply where_key_true in E as [Ha' Hs'].
  destruct Hne as [Hne|Hne]; exfalso; apply Hne; congruence.
Qed.

Lemma where_key_updated_row (t : string) (s : Z) (f : OfferFrame)
  (r : Offers.Row) :
  where_key t s (updated_row f r) = where_key t s r.
Proof. reflexivity. Qed.

Lemma update_rows_inv (f : OfferFrame) (key : Offers.Row -> bool)
  (stored stored' : list Offers.Row) :
  update_rows ["amount"; "priceN"; "priceD"; "price"]
    [VInt (amount (mEntry f)); VInt (n (price (mEntry f)));
     VInt (d (price (mEntry f))); VInt (computePrice f)] key stored
  = Ok stored' ->
  stored' = map (fun r => if key r then updated_row f r else r) stored.
Proof.
  revert stored'. induction stored as [|r stored IH]; intros stored' H.
  - simpl in H. now injection H as <-.
  - cbn [update_rows map] in *. destruct (key r).
    + rewrite bind_columns_update in H. cbn [rbind] in H.
      destruct (row_constraints (updated_row f r)); [|discriminate].
      cbn [rbind] in H.
      destruct (update_rows _ _ key stored) as [rest|]; [|discriminate].
      cbn [rbind] in H. injection H as <-. f_equal. now apply IH.
    + destruct (update_rows _ _ key stored) as [rest|]; [|discriminate].
      cbn [rbind] in H. injection H as <-. f_equal. now apply IH.
Qed.

(** The table after a write, whether it returned or threw: unchanged, or
    one row appended by [storeAdd], or the rows of the key updated by
    [storeChange], or the rows of the key removed by [storeDelete]. *)
Lemma write_shape (w : Write) (f : OfferFrame) (delta : LedgerDelta)
  (stored : list Offers.Row) :
  let key := where_key (toBase58Check VER_ACCOUNT_ID (accountID (mEntry f)))
               (sequence (mEntry f)) in
  exists stored',
    snd (write w f delta (Some stored)) = Some stored'
    /\ (stored' = stored
        \/ (exists pays gets,
              takerPays (mEntry f) = CurrencyIso pays
              /\ takerGets (mEntry f) = CurrencyIso gets
              /\ 0 <= sequence (mEntry f)
              /\ (forall x, In x stored -> key x = false)
              /\ stored' = stored ++ [inserted_row f pays gets])
        \/ stored' = map (fun r => if key r then updated_row f r else r)
                       stored
        \/ stored' = filter (fun r => negb (key r)) stored).
Proof.
  intros key. destruct w; simpl.
  - destruct (storeAdd f delta (Some stored)) as [[res delta'] db'] eqn:E.
    destruct res as [[]|e].
    + apply storeAdd_Ok_fresh in E
        as (pays & gets & Hp & Hg & Hseq & Hfresh & _ & ->).
      eexists. split; [reflexivity|]. right. left.
      exists pays, gets. repeat split; try assumption.
      intros x Hx. specialize (Hfresh x Hx).
      unfold key. rewrite <- where_key_has_key in Hfresh.
      now destruct (where_key _ _ x).
    + exists stored. split; [|now left].
      unfold storeAdd in E.
      destruct (storeAdd_statement f) as [[cols vals]|e0];
        [|now injection E as _ _ <-].
      unfold sql_insert in E.
      destruct (bind_columns cols vals Offers.all_null) as [r|e1];
        simpl in E; [|now injection E as _ _ <-].
      destruct (row_constraints r) as [[]|e1]; simpl in E;
        [|now injection E as _ _ <-].
      destruct (key_constraint r stored) as [[]|e1]; simpl in E;
        [discriminate|now injection E as _ _ <-].
  - unfold storeChange, sql_update. fold key.
    destruct (update_rows _ _ key stored) as [stored'|e] eqn:E.
    + apply update_rows_inv in E. subst stored'.
      eexists. split; [|right; right; left; reflexivity].
      now destruct (affected_rows_check _).
    + exists stored. split; [reflexivity|now left].
  - eexists. split; [reflexivity|]. right. right. right. reflexivity.
Qed.

End Shapes.

(** ** Changing and deleting *)

Section MoreWriting.

Context {codec : Codec}.

Lemma same_primary_key_sym (r x : Offers.Row) :
  same_primary_key r x = same_primary_key x r.
Proof.
  unfold same_primary_key.
  destruct (Offers.accountID r), (Offers.accountID x),
    (Offers.sequence r), (Offers.sequence x); simpl;
    rewrite ?andb_false_r; try reflexivity.
  now rewrite String.eqb_sym, Z.eqb_sym.
Qed.

Lemma where_key_same_primary_key (t : string) (s : Z) (r x : Offers.Row) :
  where_key t s r = true -> where_key t s x = true ->
  same_primary_key r x = true.
Proof.
  intros Hr Hx. apply where_key_true in Hr as [Ha Hs].
  apply where_key_true in Hx as [Hxa Hxs].
  now apply keyed_rows_same_primary_key with (t := t) (s := s).
Qed.

Lemma affected_unique (t : string) (s : Z) (stored : list Offers.Row) :
  keys_unique stored -> (affected (where_key t s) stored <= 1)%nat.
Proof.
  induction stored as [|r stored IH]; intros Hu.
  - unfold affected. simpl. lia.
  - destruct Hu as [Hr Hu]. specialize (IH Hu).
    unfold affected in *. simpl.
    destruct (where_key t s r) eqn:E; [|exact IH].
    assert (H0 : affected (where_key t s) stored = 0%nat).
    { apply affected_none. intros x Hx.
      destruct (where_key t s x) eqn:Ex; [|reflexivity].
      rewrite Forall_forall in Hr. specialize (Hr x Hx).
      rewrite (where_key_same_primary_key t s r x E Ex) in Hr.
      discriminate. }
    unfold affected in H0. simpl. rewrite H0. lia.
Qed.

Lemma affected_some (key : Offers.Row -> bool) (stored : list Offers.Row) :
  affected key stored <> 0%nat <-> exists r, In r stored /\ key r = true.
Proof.
  rewrite affected_none. split.
  - intros H.
    induction stored as [|r stored IH].
    + exfalso. apply H. intros x [].
    + destruct (key r) eqn:E.
      * exists r. split; [now left|assumption].
      * destruct IH as [x [Hx Hk]].
        -- intros Hall. apply H. intros x [<-|Hx]; auto.
        -- exists x. split; [now right|assumption].
  - intros [r [Hr Hk]] Hall. rewrite (Hall r Hr) in Hk. discriminate.
Qed.

End MoreWriting.

(** X5.  Over a table whose rows meet the schema and whose keys are
    unique, [storeChange] succeeds exactly when a row with the key is
    stored: it then updates that row and records the modification once;
    otherwise it throws and leaves the table and the delta as they were. *)
Theorem storeChange_succeeds_iff {codec : Codec} (f : OfferFrame)
  (delta : LedgerDelta) (stored : list Offers.Row) :
  Forall meets_schema stored ->
  keys_unique stored ->
  let key := where_key (toBase58Check VER_ACCOUNT_ID (accountID (mEntry f)))
               (sequence (mEntry f)) in
  ((exists r, In r stored
              /\ has_key (accountID (mEntry f)) (sequence (mEntry f)) r) ->
   storeChange f delta (Some stored)
   = (Ok tt, delta ++ [Modified f],
      Some (map (fun r => if key r then updated_row f r else r) stored)))
  /\ (~ (exists r, In r stored
                   /\ has_key (accountID (mEntry f)) (sequence (mEntry f)) r)
      -> storeChange f delta (Some stored)
         = (Err (runtime_error "could not update SQL"), delta, Some stored)).
Proof.
  intros Hschema Hunique key.
  pose proof (affected_unique
                (toBase58Check VER_ACCOUNT_ID (accountID (mEntry f)))
                (sequence (mEntry f)) stored Hunique) as Hle.
  fold key in Hle.
  assert (Hrun : storeChange f delta (Some stored)
                 = match affected_rows_check (affected key stored) with
                   | Ok _ => (Ok tt, modEntry f delta,
                              Some (map (fun r => if key r
                                                  then updated_row f r
                                                  else r) stored))
                   | Err e => (Err e, delta,
                               Some (map (fun r => if key r
                                                   then updated_row f r
                                                   else r) stored))
                   end).
  { unfold storeChange, sql_update. fold key.
    now rewrite (update_rows_storeChange f key stored Hschema). }
  split.
  - intros [r [Hr Hk]].
    assert (Hpos : affected key stored <> 0%nat).
    { apply affected_some. exists r. split; [assumption|].
      now apply where_key_has_key. }
    assert (E : affected key stored = 1%nat) by lia.
    rewrite Hrun, E. reflexivity.
  - intros Hnone.
    assert (E : affected key stored = 0%nat).
    { destruct (Nat.eq_dec (affected key stored) 0) as [E|Hne]; [exact E|].
      exfalso. apply Hnone. apply affected_some in Hne as [r [Hr Hk]].
      exists r. split; [assumption|]. now apply where_key_has_key. }
    rewrite Hrun, E. simpl. now rewrite (map_unselected f key stored E).
Qed.

Lemma storeChange_succeeds_iff_witness :
  @storeChange text_codec (offer account_A 9 USD EUR 7 9 1) [] (Some three_rows)
  = (Err (runtime_error "could not update SQL"), [], Some three_rows).
Proof.
  apply (proj2 (@storeChange_succeeds_iff text_codec
                  (offer account_A 9 USD EUR 7 9 1) [] three_rows
                  three_rows_meet_schema
                  ltac:(repeat (split; [repeat constructor|]); exact I))).
  intros [r [Hr [_ Hseq]]].
  repeat (destruct Hr as [<-|Hr]; [discriminate Hseq|]). destruct Hr.
Defined.

Section ChangedRow.

Context {codec : Codec}.

Lemma decodeRow_changed `{!CodecLaws codec} (old new : OfferFrame)
  (pays gets : ISOCurrencyIssuer) :
  takerPays (mEntry old) = CurrencyIso pays ->
  takerGets (mEntry old) = CurrencyIso gets ->
  decodeRow (updated_row new (inserted_row old pays gets))
  = Ok (changed old new).
Proof.
  intros Hp Hg. unfold decodeRow, readCurrency, account_of_text. simpl.
  rewrite !fromBase58Check256_toBase58Check. simpl.
  rewrite !strToCurrencyCode_currencyCodeToStr.
  unfold changed. rewrite Hp, Hg.
  destruct pays, gets, (price (mEntry new)). reflexivity.
Qed.

End ChangedRow.

(** X6.  What [storeChange] persists.  With conversions that undo each
    other, after an offer [old] was added, [storeChange] of a frame [new]
    with the same key succeeds, and [loadOffer] then returns the amount and
    the price of [new] with the two legs and the flags of [old]: the UPDATE
    assigns neither the flags nor the currency columns. *)
Theorem storeChange_then_loadOffer {codec : Codec} `{!CodecLaws codec}
  {backend : Backend} `{!BackendLaws backend} (old new retOffer : OfferFrame) (pays gets : ISOCurrencyIssuer)
  (delta : LedgerDelta) (stored : list Offers.Row) :
  takerPays (mEntry old) = CurrencyIso pays ->
  takerGets (mEntry old) = CurrencyIso gets ->
  accountID (mEntry new) = accountID (mEntry old) ->
  sequence (mEntry new) = sequence (mEntry old) ->
  0 <= sequence (mEntry old) ->
  Forall meets_schema stored ->
  (forall x, In x stored ->
             ~ has_key (accountID (mEntry old)) (sequence (mEntry old)) x) ->
  exists db',
    storeChange new delta (Some (stored ++ [inserted_row old pays gets]))
    = (Ok tt, delta ++ [Modified new], db')
    /\ loadOffer (accountID (mEntry old)) (sequence (mEntry old)) retOffer db'
       = (Ok true, changed old new).
Proof.
  intros Hp Hg Hacc Hseq Hpos Hschema Hfresh.
  remember (where_key
              (toBase58Check VER_ACCOUNT_ID (accountID (mEntry old)))
              (sequence (mEntry old))) as key eqn:Ekey.
  assert (Hstored : forall x, In x stored -> key x = false).
  { intros x Hx. specialize (Hfresh x Hx). subst key.
    rewrite <- where_key_has_key in Hfresh. now destruct (where_key _ _ x). }
  assert (Hrow : key (inserted_row old pays gets) = true).
  { subst key. unfold where_key. simpl.
    now rewrite String.eqb_refl, Z.eqb_refl. }
  assert (Hall : Forall meets_schema (stored ++ [inserted_row old pays gets])).
  { apply Forall_app. split; [assumption|].
    constructor; [now apply inserted_row_meets_schema|constructor]. }
  exists (Some (stored ++ [updated_row new (inserted_row old pays gets)])).
  split.
  - unfold storeChange, sql_update. rewrite Hacc, Hseq, <- Ekey.
    rewrite (update_rows_storeChange new key _ Hall).
    unfold affected. rewrite filter_app, (filter_none key stored Hstored).
    cbn [filter]. rewrite Hrow. cbn [app List.length].
    change (affected_rows_check 1) with (Ok tt).
    rewrite map_app. cbn [map]. rewrite Hrow.
    unfold modEntry. do 3 f_equal.
    rewrite <- (map_id stored) at 2. apply map_ext_in.
    intros x Hx. now rewrite (Hstored x Hx).
  - unfold loadOffer, sql_select. rewrite <- Ekey.
    rewrite filter_app, (filter_none key stored Hstored).
    assert (Hrow' : key (updated_row new (inserted_row old pays gets))
                    = true).
    { subst key. unfold where_key. simpl.
      now rewrite String.eqb_refl, Z.eqb_refl. }
    cbn [filter]. rewrite Hrow'. cbn [app].
    rewrite select_order_one. cbn [loadOffers].
    now rewrite (decodeRow_changed old new pays gets Hp Hg).
Qed.

Lemma storeChange_then_loadOffer_witness :
  exists db',
    @storeChange text_codec O2_changed []
      (Some ([] ++ [@inserted_row text_codec O2
                      (mkISOCurrencyIssuer [x55; x53; x44; x20] issuer_I)
                      (mkISOCurrencyIssuer [x45; x55; x52; x20] issuer_I)]))
    = (Ok tt, [] ++ [Modified O2_changed], db')
    /\ @loadOffer text_codec reverse_order account_A 3 OfferFrame_default db'
       = (Ok true, changed O2 O2_changed).
Proof.
  apply (@storeChange_then_loadOffer text_codec text_codec_laws
           reverse_order reverse_order_laws O2 O2_changed OfferFrame_default
           (mkISOCurrencyIssuer [x55; x53; x44; x20] issuer_I)
           (mkISOCurrencyIssuer [x45; x55; x52; x20] issuer_I) [] []).
  - reflexivity.
  - reflexivity.
  - reflexivity.
  - reflexivity.
  - simpl. lia.
  - constructor.
  - intros x [].
Defined.

(** X7.  After [storeDelete], on any table, [loadOffer] on the key of the
    deleted frame returns false and leaves [retOffer] as it was. *)
Theorem storeDelete_then_loadOffer {codec : Codec} {backend : Backend}
  `{!BackendLaws backend} (f retOffer : OfferFrame)
  (delta : LedgerDelta) (stored : list Offers.Row) :
  exists db',
    storeDelete f delta (Some stored) = (Ok tt, delta ++ [Deleted f], db')
    /\ loadOffer (accountID (mEntry f)) (sequence (mEntry f)) retOffer db'
       = (Ok false, retOffer).
Proof.
  eexists. split; [reflexivity|].
  unfold loadOffer, sql_select.
  rewrite filter_none, select_order_nil; [reflexivity|].
  intros x Hx. apply filter_In in Hx as [_ Hx].
  now destruct (where_key _ _ x).
Qed.

Lemma storeDelete_then_loadOffer_witness :
  exists db',
    @storeDelete text_codec O2 [] (Some three_rows)
    = (Ok tt, [] ++ [Deleted O2], db')
    /\ @loadOffer text_codec reverse_order account_A 3 O1 db'
       = (Ok false, O1).
Proof.
  apply (@storeDelete_then_loadOffer text_codec reverse_order
           reverse_order_laws O2 O1 [] three_rows).
Defined.

(** X8.  A write on one key does not change what [loadOffer] returns for
    any other key, whether the write succeeds or throws, on every
    database. *)
Theorem write_keeps_other_keys {codec : Codec} {backend : Backend}
  (w : Write) (f : OfferFrame)
  (delta : LedgerDelta) (db : Database) (accountID' : uint256) (seq' : Z)
  (retOffer : OfferFrame) :
  toBase58Check VER_ACCOUNT_ID accountID'
  <> toBase58Check VER_ACCOUNT_ID (accountID (mEntry f))
  \/ seq' <> sequence (mEntry f) ->
  loadOffer accountID' seq' retOffer (snd (write w f delta db))
  = loadOffer accountID' seq' retOffer db.
Proof.
  intros Hne. destruct db as [stored|].
  - destruct (write_shape w f delta stored) as [stored' [-> Hshape]].
    set (key := where_key
                  (toBase58Check VER_ACCOUNT_ID (accountID (mEntry f)))
                  (sequence (mEntry f))) in *.
    set (key' := where_key (toBase58Check VER_ACCOUNT_ID accountID') seq').
    assert (Hother : forall x, key' x = true -> key x = false).
    { intros x. apply where_key_other. exact Hne. }
    assert (E : filter key' stored' = filter key' stored).
    { destruct Hshape as [->|[Hadd|[->| ->]]].
      - reflexivity.
      - destruct Hadd as (pays & gets & _ & _ & _ & _ & ->).
        rewrite filter_app. simpl.
        destruct (key' (inserted_row f pays gets)) eqn:E;
          [|now rewrite app_nil_r].
        apply Hother in E. unfold key, where_key in E. simpl in E.
        now rewrite String.eqb_refl, Z.eqb_refl in E.
      - induction stored as [|x stored IH]; simpl; [reflexivity|].
        destruct (key x) eqn:Ex.
        + unfold key'. rewrite where_key_updated_row. fold key'.
          destruct (key' x) eqn:Ex'; [|exact IH].
          apply Hother in Ex'. congruence.
        + destruct (key' x); [f_equal|]; exact IH.
      - induction stored as [|x stored IH]; simpl; [reflexivity|].
        destruct (key x) eqn:Ex; simpl.
        + destruct (key' x) eqn:Ex'; [|exact IH].
          apply Hother in Ex'. congruence.
        + destruct (key' x); [f_equal|]; exact IH. }
    unfold loadOffer, sql_select. fold key'. now rewrite E.
  - destruct w; simpl; [|reflexivity|reflexivity].
    unfold storeAdd. destruct (storeAdd_statement f) as [[cols vals]|e];
      reflexivity.
Qed.

Lemma write_keeps_other_keys_witness :
  @loadOffer text_codec reverse_order account_A 5 OfferFrame_default
    (snd (@write text_codec StoreDelete O2 [] (Some three_rows)))
  = @loadOffer text_codec reverse_order account_A 5 OfferFrame_default
      (Some three_rows).
Proof.
  apply (@write_keeps_other_keys text_codec reverse_order StoreDelete O2 []
           (Some three_rows)
           account_A 5 OfferFrame_default).
  right. simpl. lia.
Defined.

(** X9.  A [storeAdd] that succeeded, followed by [storeDelete] of the same
    frame, gives back the table as it was before the two; the delta has
    recorded the addition and then the deletion. *)
Theorem storeAdd_then_storeDelete {codec : Codec} (f : OfferFrame)
  (delta delta1 : LedgerDelta) (stored : list Offers.Row) (db1 : Database) :
  storeAdd f delta (Some stored) = (Ok tt, delta1, db1) ->
  storeDelete f delta1 db1
  = (Ok tt, delta ++ [Added f; Deleted f], Some stored).
Proof.
  intros H.
  apply storeAdd_Ok_fresh in H
    as (pays & gets & _ & _ & _ & Hfresh & -> & ->).
  unfold storeDelete, sql_delete, deleteEntry.
  rewrite <- app_assoc. simpl. do 2 f_equal.
  rewrite filter_app. simpl.
  assert (Hrow : where_key
                   (toBase58Check VER_ACCOUNT_ID (accountID (mEntry f)))
                   (sequence (mEntry f)) (inserted_row f pays gets) = true).
  { unfold where_key. simpl. now rewrite String.eqb_refl, Z.eqb_refl. }
  rewrite Hrow. simpl. rewrite app_nil_r.
  apply filter_all. intros x Hx. specialize (Hfresh x Hx).
  rewrite <- where_key_has_key in Hfresh.
  now destruct (where_key _ _ x).
Qed.

Lemma storeAdd_then_storeDelete_witness :
  @storeDelete text_codec O1 [Added O1]
    (Some [@inserted_row text_codec O1
             (mkISOCurrencyIssuer [x55; x53; x44; x20] issuer_I)
             (mkISOCurrencyIssuer [x45; x55; x52; x20] issuer_I)])
  = (Ok tt, [Added O1; Deleted O1], Some []).
Proof.
  apply (@storeAdd_then_storeDelete text_codec O1 [] [Added O1] []).
  reflexivity.
Defined.

(** ** What holds of every table the code produces *)

Section Invariants.

Context {codec : Codec}.

Lemma same_primary_key_inserted_row (x : Offers.Row) (f : OfferFrame)
  (pays gets : ISOCurrencyIssuer) :
  same_primary_key x (inserted_row f pays gets)
  = where_key (toBase58Check VER_ACCOUNT_ID (accountID (mEntry f)))
      (sequence (mEntry f)) x.
Proof.
  unfold same_primary_key, where_key. simpl.
  now destruct (Offers.accountID x), (Offers.sequence x).
Qed.

Lemma keys_unique_app_one (stored : list Offers.Row) (r : Offers.Row) :
  keys_unique stored ->
  (forall x, In x stored -> same_primary_key x r = false) ->
  keys_unique (stored ++ [r]).
Proof.
  induction stored as [|x stored IH]; intros Hu Hr; simpl.
  - split; [constructor|exact I].
  - destruct Hu as [Hx Hu]. split.
    + apply Forall_app. split; [assumption|].
      constructor; [|constructor]. apply Hr. now left.
    + apply IH; [assumption|]. intros y Hy. apply Hr. now right.
Qed.

Lemma keys_unique_map_updated (f : OfferFrame) (key : Offers.Row -> bool)
  (stored : list Offers.Row) :
  keys_unique stored ->
  keys_unique (map (fun r => if key r then updated_row f r else r) stored).
Proof.
  induction stored as [|x stored IH]; intros Hu; simpl.
  - exact I.
  - destruct Hu as [Hx Hu]. split; [|now apply IH].
    rewrite Forall_forall in *. intros y Hy.
    apply in_map_iff in Hy as [z [<- Hz]]. specialize (Hx z Hz).
    now destruct (key x), (key z).
Qed.

Lemma keys_unique_filter (p : Offers.Row -> bool) (stored : list Offers.Row) :
  keys_unique stored -> keys_unique (filter p stored).
Proof.
  induction stored as [|x stored IH]; intros Hu; simpl.
  - exact I.
  - destruct Hu as [Hx Hu]. destruct (p x); [|now apply IH].
    split; [|now apply IH].
    rewrite Forall_forall in *. intros y Hy.
    apply filter_In in Hy as [Hy _]. now apply Hx.
Qed.

Lemma price_consistent_updated_row (f : OfferFrame) (r : Offers.Row) :
  price_consistent (updated_row f r).
Proof.
  exists (n (price (mEntry f))), (d (price (mEntry f))). now repeat split.
Qed.

Lemma price_consistent_inserted_row (f : OfferFrame)
  (pays gets : ISOCurrencyIssuer) :
  price_consistent (inserted_row f pays gets).
Proof.
  exists (n (price (mEntry f))), (d (price (mEntry f))). now repeat split.
Qed.

End Invariants.

(** X10.  Every database the code produces, by [dropAll] followed by any
    number of [storeAdd], [storeChange] and [storeDelete] calls that return
    or throw, holds a table in which every row meets the schema, no two
    rows share a key (so that no WHERE on a key selects more than one row),
    and the ordering key every row stores is the one computed from the
    numerator and the denominator it stores; with conversions that undo
    each other, every row is readable. *)
Theorem reachable_invariants {codec : Codec} (db : Database) :
  reachable db ->
  exists stored,
    db = Some stored
    /\ Forall meets_schema stored
    /\ keys_unique stored
    /\ (forall t s, (affected (where_key t s) stored <= 1)%nat)
    /\ Forall price_consistent stored
    /\ (CodecLaws codec -> Forall readable stored).
Proof.
  intros Hreach.
  assert (H : exists stored,
             db = Some stored
             /\ Forall meets_schema stored
             /\ keys_unique stored
             /\ Forall price_consistent stored
             /\ (CodecLaws codec -> Forall readable stored)).
  { induction Hreach as [db|w f delta db _ IH].
    - exists []. repeat split; constructor.
    - destruct IH as (stored & -> & Hs & Hu & Hp & Hr).
      destruct (write_shape w f delta stored) as [stored' [E Hshape]].
      exists stored'. split; [exact E|].
      destruct Hshape as [->|[Hadd|[->| ->]]].
      + repeat split; assumption.
      + destruct Hadd as (pays & gets & Hpays & Hgets & Hseq & Hfresh & ->).
        repeat split.
        * apply Forall_app. split; [assumption|].
          constructor; [now apply inserted_row_meets_schema|constructor].
        * apply keys_unique_app_one; [assumption|].
          intros x Hx. rewrite same_primary_key_inserted_row.
          now apply Hfresh.
        * apply Forall_app. split; [assumption|].
          constructor; [apply price_consistent_inserted_row|constructor].
        * intros Hlaws. apply Forall_app. split; [now apply Hr|].
          constructor; [|constructor].
          eexists. now apply decodeRow_inserted_row.
      + repeat split.
        * rewrite Forall_forall in *. intros r Hin.
          apply in_map_iff in Hin as [x [<- Hx]].
          destruct (where_key _ _ x); [|now apply Hs].
          apply updated_row_meets_schema. now apply Hs.
        * now apply keys_unique_map_updated.
        * rewrite Forall_forall in *. intros r Hin.
          apply in_map_iff in Hin as [x [<- Hx]].
          destruct (where_key _ _ x); [|now apply Hp].
          apply price_consistent_updated_row.
        * intros Hlaws. specialize (Hr Hlaws).
          rewrite Forall_forall in *. intros r Hin.
          apply in_map_iff in Hin as [x [<- Hx]].
          destruct (where_key _ _ x); [|now apply Hr].
          apply updated_row_readable. now apply Hr.
      + repeat split.
        * rewrite Forall_forall in *. intros r Hin.
          apply filter_In in Hin as [Hin _]. now apply Hs.
        * now apply keys_unique_filter.
        * rewrite Forall_forall in *. intros r Hin.
          apply filter_In in Hin as [Hin _]. now apply Hp.
        * intros Hlaws. specialize (Hr Hlaws).
          rewrite Forall_forall in *. intros r Hin.
          apply filter_In in Hin as [Hin _]. now apply Hr. }
  destruct H as (stored & -> & Hs & Hu & Hp & Hr).
  exists stored. repeat split; try assumption.
  intros t s0. now apply affected_unique.
Qed.

Lemma three_rows_reachable : @reachable text_codec (Some three_rows).
Proof.
  change (@reachable text_codec
            (snd (@write text_codec StoreAdd O3 []
                    (snd (@write text_codec StoreAdd O2 []
                            (snd (@write text_codec StoreAdd O1 []
                                    (@dropAll None)))))))).
  repeat constructor.
Qed.

Lemma reachable_invariants_witness :
  exists stored,
    Some three_rows = Some stored
    /\ Forall meets_schema stored
    /\ keys_unique stored
    /\ (forall t s, (affected (where_key t s) stored <= 1)%nat)
    /\ Forall price_consistent stored
    /\ (CodecLaws text_codec -> Forall (@readable text_codec) stored).
Proof.
  apply (@reachable_invariants text_codec (Some three_rows)).
  apply three_rows_reachable.
Defined.

(** ** Listing *)

Lemma firstn_add {A} (a b : nat) (l : list A) :
  firstn (a + b) l = firstn a l ++ firstn b (skipn a l).
Proof.
  revert l. induction a as [|a IH]; intros l; simpl.
  - reflexivity.
  - destruct l as [|x l]; simpl.
    + now rewrite firstn_nil.
    + now rewrite IH.
Qed.

Lemma limit_add (o n1 n2 : nat) (l : list Offers.Row) :
  limit o (n1 + n2) l = limit o n1 l ++ limit (o + n1) n2 l.
Proof.
  unfold limit. rewrite firstn_add, skipn_skipn.
  now rewrite (Nat.add_comm n1 o).
Qed.

Lemma Forall2_Forall_r {A B} (P : A -> B -> Prop) (Q : A -> Prop)
  (R : B -> Prop) (l : list A) (l' : list B) :
  (forall a b, P a b -> Q a -> R b) ->
  Forall2 P l l' -> Forall Q l -> Forall R l'.
Proof.
  intros H. induction 1 as [|a b l l' Hab _ IH]; intros HQ.
  - constructor.
  - inversion HQ; subst. constructor; eauto.
Qed.

Section Listing.

Context {codec : Codec}.

Lemma loadOffers_app {S : Type} (l1 l2 : list Offers.Row)
  (proc : OfferFrame -> S -> S) (s : S) :
  loadOffers (l1 ++ l2) proc s
  = match loadOffers l1 proc s with
    | (Ok _, s1) => loadOffers l2 proc s1
    | (Err e, s1) => (Err e, s1)
    end.
Proof.
  revert s. induction l1 as [|r l1 IH]; intros s; simpl.
  - reflexivity.
  - destruct (decodeRow r) as [f|e]; [apply IH|reflexivity].
Qed.

Lemma loadOffers_decoded {S : Type} (rows : list Offers.Row)
  (offers : list OfferFrame) (proc : OfferFrame -> S -> S) (s : S) :
  Forall2 (fun r f => decodeRow r = Ok f) rows offers ->
  loadOffers rows proc s = (Ok tt, fold_left (fun acc f => proc f acc) offers s).
Proof.
  intros H. revert s.
  induction H as [|r f rows offers Hrf _ IH]; intros s; simpl.
  - reflexivity.
  - rewrite Hrf. apply IH.
Qed.

Lemma decodeRow_accountID (r : Offers.Row) (f : OfferFrame) :
  decodeRow r = Ok f ->
  exists t, Offers.accountID r = Some t
            /\ fromBase58Check256 VER_ACCOUNT_ID t
               = Some (accountID (mEntry f)).
Proof.
  unfold decodeRow.
  destruct r as [a s pc pi gc gi am pn pd fl pr]. simpl.
  destruct a as [a|]; [|discriminate].
  destruct s as [s|]; [|discriminate].
  destruct pi as [pi|]; [|discriminate].
  destruct gi as [gi|]; [|discriminate].
  destruct am as [am|]; [|discriminate].
  destruct pn as [pn|]; [|discriminate].
  destruct pd as [pd|]; [|discriminate].
  destruct fl as [fl|]; [|discriminate].
  simpl. unfold account_of_text at 1.
  destruct (fromBase58Check256 VER_ACCOUNT_ID a) as [acc|] eqn:E;
    [|discriminate]. simpl.
  destruct (readCurrency pc pi) as [p|]; [|discriminate]. simpl.
  destruct (readCurrency gc gi) as [g|]; [|discriminate]. simpl.
  intros H. injection H as <-. exists a. split; [reflexivity|exact E].
Qed.

End Listing.

(** X11.  Over a table of readable rows, [loadOffers] for an account keeps
    what [retOffers] held and appends the decoded rows stored under the
    text of that account, each once, in the order the backend hands them
    out: the statement has no ORDER BY, so the order is the backend's and
    need not be the order of storage.  With conversions that undo each
    other, every offer it appends has the account asked for. *)
Theorem loadOffers_account_rows {codec : Codec} `{!CodecLaws codec}
  {backend : Backend} `{!BackendLaws backend}
  (account : uint256) (retOffers : list OfferFrame)
  (stored : list Offers.Row) :
  Forall readable stored ->
  exists rows offers,
    loadOffers_account account retOffers (Some stored)
    = (Ok tt, retOffers ++ offers)
    /\ Permutation rows (filter (where_account account) stored)
    /\ Forall2 (fun r f => decodeRow r = Ok f) rows offers
    /\ Forall (fun f => accountID (mEntry f) = account) offers.
Proof.
  intros Hread.
  set (rows := select_order (filter (where_account account) stored)).
  assert (Hsel : Forall readable rows).
  { rewrite Forall_forall in *. intros r Hr.
    apply In_select_order, filter_In in Hr as [Hr _]. now apply Hread. }
  destruct (loadOffers_readable _ Hsel) as [offers [H2 Hrun]].
  exists rows, offers. split; [|split; [|split]].
  - unfold loadOffers_account, sql_select.
    change (fun r => text_is (Offers.accountID r)
                       (toBase58Check VER_ACCOUNT_ID account))
      with (where_account account).
    fold rows. now rewrite Hrun, push_back_all.
  - apply select_order_Permutation.
  - exact H2.
  - apply (Forall2_Forall_r _ (fun r => where_account account r = true)
             _ _ _) with (2 := H2).
    + intros r f Hdec Hw.
      apply decodeRow_accountID in Hdec as [t [Ht Hacc]].
      unfold where_account in Hw. apply text_is_true in Hw.
      rewrite Ht in Hw. injection Hw as ->.
      rewrite fromBase58Check256_toBase58Check in Hacc. congruence.
    + rewrite Forall_forall. intros r Hr. unfold rows in Hr.
      apply (proj1 (In_select_order _ _)) in Hr. now apply filter_In in Hr.
Qed.

Lemma loadOffers_account_rows_witness :
  exists rows offers,
    @loadOffers_account text_codec reverse_order account_A [O3]
      (Some three_rows)
    = (Ok tt, [O3] ++ offers)
    /\ Permutation rows (filter (@where_account text_codec account_A)
                           three_rows)
    /\ Forall2 (fun r f => @decodeRow text_codec r = Ok f) rows offers
    /\ Forall (fun f => accountID (mEntry f) = account_A) offers.
Proof.
  apply (@loadOffers_account_rows text_codec text_codec_laws
           reverse_order reverse_order_laws account_A [O3] three_rows).
  apply three_rows_readable.
Defined.

(** X12.  An empty page.  When [numOffers] is 0, or [offset] is at least
    the number of rows the filter selects, [loadBestOffers] returns
    [retOffers] as it was, on every table, readable or not: no row is
    fetched. *)
Theorem loadBestOffers_empty_page {codec : Codec} (numOffers offset : nat)
  (pays gets : Currency) (retOffers : list OfferFrame)
  (stored : list Offers.Row) :
  numOffers = 0%nat
  \/ (affected (where_best pays gets) stored <= offset)%nat ->
  loadBestOffers numOffers offset pays gets retOffers (Some stored)
  = (Ok tt, retOffers).
Proof.
  intros H. unfold loadBestOffers, bestOffers_rows, limit.
  assert (E : firstn numOffers
                (skipn offset
                   (order_by_price_sequence_accountID
                      (filter (fun r => where_pays pays r && where_gets gets r)
                         stored))) = []).
  { destruct H as [->|Hle]; [reflexivity|].
    rewrite skipn_all2; [apply firstn_nil|].
    rewrite (Permutation_length (order_by_Permutation _)). exact Hle. }
  now rewrite E.
Qed.

Lemma loadBestOffers_empty_page_witness :
  @loadBestOffers text_codec 5 3 USD EUR [O1] (Some three_rows)
  = (Ok tt, [O1]).
Proof.
  apply (@loadBestOffers_empty_page text_codec 5 3 USD EUR [O1] three_rows).
  right. vm_compute. lia.
Defined.

(** X13.  Pages compose.  When [loadBestOffers] has returned a page of
    [n1] rows from [offset], asking next for [n2] rows from [offset + n1],
    into the vector the first call filled, gives what one call for
    [n1 + n2] rows from [offset] gives. *)
Theorem loadBestOffers_pages_compose {codec : Codec} (n1 n2 offset : nat)
  (pays gets : Currency) (retOffers ret1 : list OfferFrame) (db : Database) :
  loadBestOffers n1 offset pays gets retOffers db = (Ok tt, ret1) ->
  loadBestOffers n2 (offset + n1) pays gets ret1 db
  = loadBestOffers (n1 + n2) offset pays gets retOffers db.
Proof.
  destruct db as [stored|]; [|discriminate].
  unfold loadBestOffers, bestOffers_rows. intros H.
  now rewrite limit_add, loadOffers_app, H.
Qed.

Lemma loadBestOffers_pages_compose_witness :
  @loadBestOffers text_codec 2 1 USD EUR [O3] (Some three_rows)
  = @loadBestOffers text_codec 3 0 USD EUR [] (Some three_rows).
Proof.
  apply (@loadBestOffers_pages_compose text_codec 1 2 0 USD EUR [] [O3]
           (Some three_rows)).
  vm_compute. reflexivity.
Defined.

(** X14.  The loop of [loadOffers] stops at the first row it cannot fetch
    or decode: the exception of that row is the outcome, the processor has
    been run on every row before it, in order, and on no row after it. *)
Theorem loadOffers_stops_at_error {codec : Codec} {S : Type}
  (good rest : list Offers.Row) (bad : Offers.Row)
  (offers : list OfferFrame) (e : exn)
  (proc : OfferFrame -> S -> S) (s : S) :
  Forall2 (fun r f => decodeRow r = Ok f) good offers ->
  decodeRow bad = Err e ->
  loadOffers (good ++ bad :: rest) proc s
  = (Err e, fold_left (fun acc f => proc f acc) offers s).
Proof.
  intros Hgood Hbad.
  rewrite loadOffers_app, (loadOffers_decoded good offers proc s Hgood).
  simpl. now rewrite Hbad.
Qed.

Lemma loadOffers_stops_at_error_witness :
  @loadOffers text_codec (list OfferFrame)
    ([@inserted_row text_codec O1
        (mkISOCurrencyIssuer [x55; x53; x44; x20] issuer_I)
        (mkISOCurrencyIssuer [x45; x55; x52; x20] issuer_I)]
     ++ row_null_issuer :: three_rows)
    (fun offer retOffers => retOffers ++ [offer]) []
  = (Err (soci_error NullFetchedNoIndicator),
     fold_left (fun acc f => acc ++ [f]) [O1] []).
Proof.
  apply (@loadOffers_stops_at_error text_codec (list OfferFrame)).
  - repeat constructor.
  - reflexivity.
Defined.

(** ** The order book of a table that meets the schema *)

Lemma Permutation_filter {A} (p : A -> bool) (l1 l2 : list A) :
  Permutation l1 l2 -> Permutation (filter p l1) (filter p l2).
Proof.
  induction 1 as [|x l1 l2 _ IH|x y l|l1 l2 l3 _ IH1 _ IH2]; simpl.
  - constructor.
  - destruct (p x); [now constructor|assumption].
  - destruct (p x), (p y); try apply Permutation_refl. apply perm_swap.
  - now apply perm_trans with (filter p l2).
Qed.

Lemma keys_unique_In (stored : list Offers.Row) (a b : Offers.Row) :
  keys_unique stored -> In a stored -> In b stored ->
  same_primary_key a b = true -> a = b.
Proof.
  induction stored as [|x stored IH]; intros Hu Ha Hb Hk; [destruct Ha|].
  destruct Hu as [Hx Hu]. rewrite Forall_forall in Hx.
  destruct Ha as [<-|Ha], Hb as [<-|Hb].
  - reflexivity.
  - rewrite (Hx b Hb) in Hk. discriminate.
  - rewrite same_primary_key_sym, (Hx a Ha) in Hk. discriminate.
  - now apply IH.
Qed.

Lemma ascending_antisym (stored : list Offers.Row) (a b : Offers.Row) :
  Forall meets_schema stored -> keys_unique stored ->
  In a stored -> In b stored ->
  ascending a b -> ascending b a -> a = b.
Proof.
  intros Hs Hu Ha Hb Hab Hba.
  unfold ascending, row_leb, compare_rows in *.
  pose proof compare_keys_laws as [Hanti Heq _].
  rewrite (Hanti (sort_key b) (sort_key a)) in Hba.
  destruct (compare_keys (sort_key a) (sort_key b)) eqn:E;
    try discriminate.
  apply Heq in E.
  apply (keys_unique_In stored); try assumption.
  rewrite Forall_forall in Hs.
  destruct (meets_schema_inv a (Hs a Ha))
    as (a1 & s1 & ? & ? & ? & ? & ? & ? & ? & ? & ? & -> & _).
  destruct (meets_schema_inv b (Hs b Hb))
    as (a2 & s2 & ? & ? & ? & ? & ? & ? & ? & ? & ? & -> & _).
  unfold sort_key in E. simpl in E. injection E as _ -> ->.
  unfold same_primary_key. simpl.
  now rewrite String.eqb_refl, Z.eqb_refl.
Qed.

Lemma sorted_Permutation_eq (l1 l2 : list Offers.Row) :
  StronglySorted ascending l1 -> StronglySorted ascending l2 ->
  Permutation l1 l2 ->
  (forall a b, In a l1 -> In b l1 -> ascending a b -> ascending b a ->
               a = b) ->
  l1 = l2.
Proof.
  revert l2. induction l1 as [|a l1 IH]; intros l2 H1 H2 Hp Hanti.
  - apply Permutation_nil in Hp. now subst.
  - destruct l2 as [|b l2].
    + apply Permutation_sym, Permutation_nil in Hp. discriminate.
    + apply StronglySorted_inv in H1 as [H1 Ha].
      apply StronglySorted_inv in H2 as [H2 Hb].
      rewrite Forall_forall in Ha, Hb.
      assert (E : a = b).
      { assert (Hina : In a (b :: l2))
          by (apply (Permutation_in _ Hp); now left).
        assert (Hinb : In b (a :: l1))
          by (apply (Permutation_in _ (Permutation_sym Hp)); now left).
        destruct Hina as [->|Hina]; [reflexivity|].
        destruct Hinb as [->|Hinb]; [reflexivity|].
        apply Hanti; [now left|now right|now apply Ha|now apply Hb]. }
      subst b. f_equal.
      apply IH; try assumption.
      * now apply Permutation_cons_inv in Hp.
      * intros x y Hx Hy. apply Hanti; now right.
Qed.

(** X15.  The order of storage does not show.  Two tables that hold the
    same rows in any order, rows that meet the schema with keys that are
    unique, give the same answer to every [loadBestOffers]: ties on the
    price are broken by sequence and account, which no two rows share. *)
Theorem loadBestOffers_storage_order {codec : Codec}
  (stored1 stored2 : list Offers.Row) (numOffers offset : nat)
  (pays gets : Currency) (retOffers : list OfferFrame) :
  Forall meets_schema stored1 ->
  keys_unique stored1 ->
  Permutation stored1 stored2 ->
  loadBestOffers numOffers offset pays gets retOffers (Some stored1)
  = loadBestOffers numOffers offset pays gets retOffers (Some stored2).
Proof.
  intros Hs Hu Hp. unfold loadBestOffers, bestOffers_rows.
  set (p := fun r => where_pays pays r && where_gets gets r).
  assert (E : order_by_price_sequence_accountID (filter p stored1)
              = order_by_price_sequence_accountID (filter p stored2)).
  { apply sorted_Permutation_eq; try apply order_by_StronglySorted.
    - apply perm_trans with (filter p stored1);
        [apply order_by_Permutation|].
      apply perm_trans with (filter p stored2);
        [now apply Permutation_filter|].
      apply Permutation_sym, order_by_Permutation.
    - intros a b Ha Hb.
      apply (ascending_antisym stored1); try assumption.
      + apply (Permutation_in _ (order_by_Permutation _)) in Ha.
        now apply filter_In in Ha.
      + apply (Permutation_in _ (order_by_Permutation _)) in Hb.
        now apply filter_In in Hb. }
  now rewrite E.
Qed.

Lemma three_rows_keys_unique : keys_unique three_rows.
Proof. repeat (split; [repeat constructor|]). exact I. Qed.

Lemma loadBestOffers_storage_order_witness :
  @loadBestOffers text_codec 2 0 USD EUR [] (Some three_rows)
  = @loadBestOffers text_codec 2 0 USD EUR [] (Some (rev three_rows)).
Proof.
  apply (@loadBestOffers_storage_order text_codec three_rows (rev three_rows)).
  - apply three_rows_meet_schema.
  - apply three_rows_keys_unique.
  - apply Permutation_rev.
Defined.

(** X16.  No Native leg in a table that meets the schema.  On such a table
    [loadBestOffers] with a Native filter on either leg selects no row and
    returns [retOffers] as it was, and every row that decodes gives an
    offer whose two legs are both of type ISO4217. *)
Theorem schema_table_has_no_native_leg {codec : Codec}
  (stored : list Offers.Row) :
  Forall meets_schema stored ->
  (forall numOffers offset pays gets retOffers,
     type pays = NATIVE \/ type gets = NATIVE ->
     loadBestOffers numOffers offset pays gets retOffers (Some stored)
     = (Ok tt, retOffers))
  /\ (forall r f,
        In r stored -> decodeRow r = Ok f ->
        type (takerPays (mEntry f)) = ISO4217
        /\ type (takerGets (mEntry f)) = ISO4217).
Proof.
  intros Hs. rewrite Forall_forall in Hs. split.
  - intros numOffers offset pays gets retOffers Hnative.
    unfold loadBestOffers, bestOffers_rows, limit.
    rewrite filter_none.
    + simpl. now rewrite skipn_nil, firstn_nil.
    + intros r Hr.
      destruct (meets_schema_inv r (Hs r Hr))
        as (? & ? & ? & ? & ? & ? & ? & ? & ? & ? & ? & -> & _).
      destruct Hnative as [H|H].
      * destruct pays; [reflexivity|discriminate].
      * destruct gets; [apply andb_false_r|discriminate].
  - intros r f Hr Hdec.
    destruct (meets_schema_inv r (Hs r Hr))
      as (a & s & pc & pi & gc & gi & am & pn & pd & fl & pr & -> & _).
    apply decodeRow_legs in Hdec as [Hp Hg].
    unfold decodeCurrency, readCurrency in Hp, Hg. simpl in Hp, Hg.
    destruct (account_of_text pi); [|discriminate].
    destruct (account_of_text gi); [|discriminate].
    simpl in Hp, Hg. injection Hp as <-. injection Hg as <-.
    split; reflexivity.
Qed.

Lemma schema_table_has_no_native_leg_witness :
  @loadBestOffers text_codec 10 0 CurrencyNative USD [O1] (Some three_rows)
  = (Ok tt, [O1]).
Proof.
  apply (proj1 (@schema_table_has_no_native_leg text_codec three_rows
                  three_rows_meet_schema)).
  left. reflexivity.
Defined.

(** ** The ordering key and the order of prices *)

(** X17.  The ordering key follows the order of the prices.  For prices
    with numerators from 0 to INT32_MAX and denominators from 1 to
    INT32_MAX, with [bigDivide] the wide multiply-then-divide, a price that
    is not greater as a fraction (compared by cross-multiplication) has an
    ordering key that is not greater, and equal fractions have equal
    keys. *)
Theorem computePrice_monotone (f g : OfferFrame) :
  let nf := n (price (mEntry f)) in
  let df := d (price (mEntry f)) in
  let ng := n (price (mEntry g)) in
  let dg := d (price (mEntry g)) in
  0 <= nf <= INT32_MAX -> 0 < df <= INT32_MAX ->
  0 <= ng <= INT32_MAX -> 0 < dg <= INT32_MAX ->
  (nf * dg <= ng * df -> computePrice f <= computePrice g)
  /\ (nf * dg = ng * df -> computePrice f = computePrice g).
Proof.
  intros nf df ng dg Hnf Hdf Hng Hdg. unfold INT32_MAX in *.
  assert (B1 : 2 ^ 31 * 10000000 < 2 ^ 63) by (vm_compute; reflexivity).
  assert (B2 : 2 ^ 31 < 2 ^ 63) by (vm_compute; reflexivity).
  assert (B3 : 10000000 < 2 ^ 63) by (vm_compute; reflexivity).
  assert (Ef : computePrice f = nf * 10000000 / df).
  { unfold computePrice, OFFER_PRICE_DIVISOR. fold nf df.
    apply bigDivide_exact; lia. }
  assert (Eg : computePrice g = ng * 10000000 / dg).
  { unfold computePrice, OFFER_PRICE_DIVISOR. fold ng dg.
    apply bigDivide_exact; lia. }
  assert (Hmono : forall a b c e,
             0 <= a -> 0 < b -> 0 < e -> a * e <= c * b -> a / b <= c / e).
  { intros a b c e Ha Hb He Hle.
    apply Z.div_le_lower_bound; [assumption|].
    pose proof (Z.mul_div_le a b Hb).
    assert (0 <= a / b) by (apply Z.div_pos; lia).
    nia. }
  rewrite Ef, Eg. split.
  - intros Hle. apply Hmono; nia.
  - intros Heq. apply Z.le_antisymm; apply Hmono; nia.
Qed.

Lemma computePrice_monotone_witness :
  computePrice (offer account_A 1 USD EUR 100 1 3)
  <= computePrice (offer account_A 1 USD EUR 100 1 2).
Proof.
  apply (proj1 (computePrice_monotone (offer account_A 1 USD EUR 100 1 3)
                  (offer account_A 1 USD EUR 100 1 2)
                  ltac:(simpl; unfold INT32_MAX; lia)
                  ltac:(simpl; unfold INT32_MAX; lia)
                  ltac:(simpl; unfold INT32_MAX; lia)
                  ltac:(simpl; unfold INT32_MAX; lia))).
  simpl. lia.
Defined.

(** ** The bytes that are hashed *)

Lemma byte_of_Z_to_N (z : Z) :
  Byte.to_N (byte_of_Z z) = Z.to_N (Z.land z 255).
Proof.
  unfold byte_of_Z.
  destruct (Byte.of_N (Z.to_N (Z.land z 255))) as [b|] eqn:E.
  - now apply Byte.to_of_N.
  - apply Byte.of_N_None_iff in E.
    change 255 with (Z.ones 8) in E. rewrite Z.land_ones in E by lia.
    pose proof (Z.mod_pos_bound z (2 ^ 8) ltac:(lia)).
    change (2 ^ 8) with 256 in *. lia.
Qed.

Lemma byte_of_Z_inj (x y : Z) :
  byte_of_Z x = byte_of_Z y -> x mod 256 = y mod 256.
Proof.
  intros H. apply (f_equal Byte.to_N) in H.
  rewrite !byte_of_Z_to_N in H.
  change 255 with (Z.ones 8) in H. rewrite !Z.land_ones in H by lia.
  change (2 ^ 8) with 256 in H.
  pose proof (Z.mod_pos_bound x 256 ltac:(lia)).
  pose proof (Z.mod_pos_bound y 256 ltac:(lia)).
  apply Z2N.inj in H; lia.
Qed.

Lemma little_endian_uint32_inj (x y : Z) :
  0 <= x < 2 ^ 32 -> 0 <= y < 2 ^ 32 ->
  little_endian_uint32 x = little_endian_uint32 y -> x = y.
Proof.
  intros Hx Hy H. unfold little_endian_uint32 in H.
  injection H as H0 H1 H2 H3.
  apply byte_of_Z_inj in H0, H1, H2, H3.
  rewrite !Z.shiftr_div_pow2 in * by lia.
  change (2 ^ 8) with 256 in *. change (2 ^ 16) with 65536 in *.
  change (2 ^ 24) with 16777216 in *. change (2 ^ 32) with 4294967296 in *.
  Z.div_mod_to_equations. lia.
Qed.

Lemma app_same_length_inv {A} (a1 a2 b1 b2 : list A) :
  List.length a1 = List.length a2 -> a1 ++ b1 = a2 ++ b2 ->
  a1 = a2 /\ b1 = b2.
Proof.
  revert a2. induction a1 as [|x a1 IH]; intros [|y a2] Hlen H;
    simpl in *; try discriminate.
  - now split.
  - injection H as -> H. injection Hlen as Hlen.
    destruct (IH a2 Hlen H) as [-> ->]. now split.
Qed.

(** X18.  On one host, the bytes [calculateIndex] hashes determine the
    key: two frames whose account identifiers have the same length and
    whose sequences are uint32 values are given the same bytes only when
    they have the same account identifier and the same sequence. *)
Theorem calculateIndex_input_injective (host : Endianness) (f g : OfferFrame) :
  List.length (accountID (mEntry f)) = List.length (accountID (mEntry g)) ->
  0 <= sequence (mEntry f) < 2 ^ 32 ->
  0 <= sequence (mEntry g) < 2 ^ 32 ->
  calculateIndex_input host f = calculateIndex_input host g ->
  accountID (mEntry f) = accountID (mEntry g)
  /\ sequence (mEntry f) = sequence (mEntry g).
Proof.
  intros Hlen Hf Hg H. unfold calculateIndex_input in H.
  apply app_same_length_inv in H as [Hacc Hseq]; [|assumption].
  split; [assumption|].
  apply little_endian_uint32_inj; try assumption.
  destruct host; unfold ByteSlice_uint32 in Hseq; [assumption|].
  apply (f_equal (@rev byte)) in Hseq. now rewrite !rev_involutive in Hseq.
Qed.

Lemma calculateIndex_input_injective_witness :
  accountID (mEntry O1) = accountID (mEntry (offer account_A 5 EUR USD 1 1 1))
  /\ sequence (mEntry O1) = sequence (mEntry (offer account_A 5 EUR USD 1 1 1)).
Proof.
  apply (calculateIndex_input_injective BigEndian O1
           (offer account_A 5 EUR USD 1 1 1)).
  - reflexivity.
  - simpl. lia.
  - simpl. lia.
  - reflexivity.
Defined.

(** ** From the table to the order book *)

Lemma Forall2_In_l {A B} (P : A -> B -> Prop) (l : list A) (l' : list B)
  (a : A) :
  Forall2 P l l' -> In a l -> exists b, In b l' /\ P a b.
Proof.
  induction 1 as [|x y l l' Hxy _ IH]; intros Hin.
  - destruct Hin.
  - destruct Hin as [<-|Hin].
    + exists y. split; [now left|assumption].
    + destruct (IH Hin) as [b [Hb HP]]. exists b. split; [now right|easy].
Qed.

Lemma filter_length_le {A} (p : A -> bool) (l : list A) :
  (List.length (filter p l) <= List.length l)%nat.
Proof.
  induction l as [|x l IH]; simpl; [lia|].
  destruct (p x); simpl; lia.
Qed.

(** X19.  An offer that was added is in the order book of its pair.  With
    conversions that undo each other, over a table of readable rows, after
    the [storeAdd] of an offer with two issued legs and a free key,
    [loadBestOffers] on the two legs of the offer, from offset 0 and with
    room for every row of the table, returns and lists the offer. *)
Theorem storeAdd_then_loadBestOffers {codec : Codec} `{!CodecLaws codec}
  (f : OfferFrame) (pays gets : ISOCurrencyIssuer) (delta : LedgerDelta)
  (stored : list Offers.Row) :
  takerPays (mEntry f) = CurrencyIso pays ->
  takerGets (mEntry f) = CurrencyIso gets ->
  0 <= sequence (mEntry f) ->
  (forall x, In x stored ->
             ~ has_key (accountID (mEntry f)) (sequence (mEntry f)) x) ->
  Forall readable stored ->
  exists db' offers,
    storeAdd f delta (Some stored) = (Ok tt, delta ++ [Added f], db')
    /\ loadBestOffers (S (List.length stored)) 0
         (takerPays (mEntry f)) (takerGets (mEntry f)) [] db'
       = (Ok tt, offers)
    /\ In (loaded f) offers.
Proof.
  intros Hp Hg Hseq Hfresh Hread.
  set (row := inserted_row f pays gets).
  assert (Hdec : decodeRow row = Ok (loaded f))
    by now apply decodeRow_inserted_row.
  assert (Hall : Forall readable (stored ++ [row])).
  { apply Forall_app. split; [assumption|].
    constructor; [now exists (loaded f)|constructor]. }
  set (rows := bestOffers_rows (S (List.length stored)) 0
                 (takerPays (mEntry f)) (takerGets (mEntry f))
                 (stored ++ [row])).
  assert (Hsel : Forall readable rows).
  { rewrite Forall_forall in *. intros r Hr. apply Hall.
    now apply bestOffers_rows_stored in Hr. }
  destruct (loadOffers_readable _ Hsel) as [offers [H2 Hrun]].
  exists (Some (stored ++ [row])), offers. split; [|split].
  - now apply storeAdd_both_issued.
  - unfold loadBestOffers. fold rows. now rewrite Hrun, push_back_all.
  - assert (Hin : In row rows).
    { unfold rows, bestOffers_rows, limit. rewrite skipn_0.
      rewrite firstn_all2.
      - apply (Permutation_in _ (Permutation_sym (order_by_Permutation _))).
        apply filter_In. split; [apply in_or_app; right; now left|].
        rewrite Hp, Hg. unfold row. simpl.
        now rewrite !String.eqb_refl.
      - rewrite (Permutation_length (order_by_Permutation _)).
        etransitivity; [apply filter_length_le|].
        rewrite length_app. simpl. lia. }
    destruct (Forall2_In_l _ _ _ _ H2 Hin) as [b [Hb Hrow]].
    rewrite Hdec in Hrow. injection Hrow as <-. exact Hb.
Qed.

Lemma storeAdd_then_loadBestOffers_witness :
  exists db' offers,
    @storeAdd text_codec O1 [] (Some []) = (Ok tt, [] ++ [Added O1], db')
    /\ @loadBestOffers text_codec 1 0 USD EUR [] db' = (Ok tt, offers)
    /\ In (loaded O1) offers.
Proof.
  apply (@storeAdd_then_loadBestOffers text_codec text_codec_laws O1
           (mkISOCurrencyIssuer [x55; x53; x44; x20] issuer_I)
           (mkISOCurrencyIssuer [x45; x55; x52; x20] issuer_I) [] []).
  - reflexivity.
  - reflexivity.
  - simpl. lia.
  - intros x [].
  - constructor.
Defined.

(** ** Point lookup over unique keys *)

Lemma filter_key_unique {codec : Codec} (t : string) (s : Z)
  (stored : list Offers.Row) (r : Offers.Row) :
  keys_unique stored -> In r stored -> where_key t s r = true ->
  filter (where_key t s) stored = [r].
Proof.
  induction stored as [|x stored IH]; intros Hu Hr Hk; [destruct Hr|].
  destruct Hu as [Hx Hu]. rewrite Forall_forall in Hx. simpl.
  destruct (where_key t s x) eqn:Ex.
  - assert (Hrest : forall y, In y stored -> where_key t s y = false).
    { intros y Hy. destruct (where_key t s y) eqn:Ey; [|reflexivity].
      specialize (Hx y Hy).
      rewrite (where_key_same_primary_key t s x y Ex Ey) in Hx.
      discriminate. }
    rewrite (filter_none _ _ Hrest).
    destruct Hr as [->|Hr]; [reflexivity|].
    rewrite (Hrest r Hr) in Hk. discriminate.
  - destruct Hr as [->|Hr]; [congruence|]. now apply IH.
Qed.

(** X20.  Over a table with unique keys, [loadOffer] on the key of a stored
    row depends on that row alone: when the row decodes, it returns true
    and [retOffer] is the decoded row; when the row cannot be fetched or
    decoded, it ends on the exception of that row and [retOffer] is as the
    caller passed it.  The other rows need not be readable. *)
Theorem loadOffer_unique_row {codec : Codec} {backend : Backend}
  `{!BackendLaws backend} (stored : list Offers.Row)
  (r : Offers.Row) (account : uint256) (seq : Z) (retOffer : OfferFrame) :
  keys_unique stored ->
  In r stored ->
  has_key account seq r ->
  loadOffer account seq retOffer (Some stored)
  = match decodeRow r with
    | Ok f => (Ok true, f)
    | Err e => (Err e, retOffer)
    end.
Proof.
  intros Hu Hr Hk. apply where_key_has_key in Hk.
  unfold loadOffer, sql_select.
  rewrite (filter_key_unique _ _ stored r Hu Hr Hk), select_order_one. simpl.
  now destruct (decodeRow r).
Qed.

Lemma loadOffer_unique_row_witness :
  @loadOffer text_codec reverse_order account_A 7 O1
    (Some (three_rows ++ [Offers.mkRow (Some (string_of_list_byte account_A))
                            (Some 7) (Some "USD ") (Some "I") None None
                            (Some 100) (Some 3) (Some 1) (Some 0)
                            (Some 30000000)]))
  = (Err (soci_error NullFetchedNoIndicator), O1).
Proof.
  apply (@loadOffer_unique_row text_codec reverse_order reverse_order_laws
           (three_rows ++ [Offers.mkRow
                             (Some (string_of_list_byte account_A))
                             (Some 7) (Some "USD ") (Some "I") None None
                             (Some 100) (Some 3) (Some 1) (Some 0)
                             (Some 30000000)])
           (Offers.mkRow (Some (string_of_list_byte account_A))
              (Some 7) (Some "USD ") (Some "I") None None
              (Some 100) (Some 3) (Some 1) (Some 0) (Some 30000000))
           account_A 7 O1).
  - repeat (split; [repeat constructor|]). exact I.
  - apply in_or_app. right. left. reflexivity.
  - split; reflexivity.
Defined.
